(** * add_modern_design.py: the project-file patcher

    A shallow embedding of the script that registers [ModernDesign.swift]
    in an Xcode [project.pbxproj]: it draws two identifiers, builds four
    text fragments, splices each one after the first match of its anchor,
    writes the text back and prints a report.

    Text is [list ascii]; the four regular expressions of the script are
    escaped literals, so [re.search] is a leftmost substring search. *)

From Stdlib Require Import Ascii String List NArith Arith Lia Bool Permutation.
Import ListNotations.

Local Open Scope list_scope.

(** ** Text *)

Definition text := list ascii.

Definition lit (s : string) : text := list_ascii_of_string s.

Definition tab : ascii := "009"%char.
Definition nl : ascii := "010"%char.
Definition dquote : ascii := "034"%char.

(** [starts_with n h]: the text [h] begins with [n]. *)
Fixpoint starts_with (n h : text) : bool :=
  match n, h with
  | [], _ => true
  | _ :: _, [] => false
  | a :: n', b :: h' => Ascii.eqb a b && starts_with n' h'
  end.

(** [search n h]: start index of the leftmost match of the literal
    pattern [n] in [h] ([re.search], [None] when there is no match). *)
Fixpoint search (n h : text) : option nat :=
  if starts_with n h then Some 0
  else match h with
       | [] => None
       | _ :: h' => option_map S (search n h')
       end.

(** [content[:insert_pos] + frag + content[insert_pos:]] with
    [insert_pos = match.end()]; the text is left alone without a match. *)
Definition splice (pos : nat) (frag content : text) : text :=
  firstn pos content ++ frag ++ skipn pos content.

Definition insert_after (anchor frag content : text) : text :=
  match search anchor content with
  | Some start => splice (start + length anchor) frag content
  | None => content
  end.

(** ** Identifiers: [uuid.uuid4().hex[:24].upper()] *)

(** The 128-bit value of a version-4 UUID built from 128 random bits:
    the variant bits are forced to [10] and the version nibble to [4]. *)
Definition uuid4 (r : N) : N :=
  let r := N.modulo r (2 ^ 128) in
  let r := N.lor (N.ldiff r (N.shiftl 49152 48)) (N.shiftl 32768 48) in
  N.lor (N.ldiff r (N.shiftl 61440 64)) (N.shiftl 4 76).

Definition hex_digit (d : N) : ascii :=
  match d with
  | 0 => "0" | 1 => "1" | 2 => "2" | 3 => "3" | 4 => "4" | 5 => "5"
  | 6 => "6" | 7 => "7" | 8 => "8" | 9 => "9" | 10 => "a" | 11 => "b"
  | 12 => "c" | 13 => "d" | 14 => "e" | _ => "f"
  end%N%char.

(** The [k] low hexadecimal digits of [n], most significant first. *)
Fixpoint hex_digits (k : nat) (n : N) : text :=
  match k with
  | O => []
  | S k' => hex_digits k' (N.div n 16) ++ [hex_digit (N.modulo n 16)]
  end.

(** [UUID.hex]: 32 lowercase hexadecimal digits. *)
Definition hex (u : N) : text := hex_digits 32 u.

(** [str.upper] on one character (ASCII letters). *)
Definition upper_char (c : ascii) : ascii :=
  let n := nat_of_ascii c in
  if (97 <=? n) && (n <=? 122) then ascii_of_nat (n - 32) else c.

Definition upper (s : text) : text := map upper_char s.

Definition make_id (r : N) : text := upper (firstn 24 (hex (uuid4 r))).

(** ** The four anchors and the four fragments *)

Definition file_ref_marker : text := lit "/* Begin PBXFileReference section */".
Definition build_file_marker : text := lit "/* Begin PBXBuildFile section */".
Definition group_pattern : text := lit "BB0002 /* ContentView.swift */,".
Definition sources_pattern : text :=
  lit "AA0002 /* ContentView.swift in Sources */,".

Definition file_ref_tail : text :=
  lit " /* ModernDesign.swift */ = {isa = PBXFileReference; lastKnownFileType = sourcecode.swift; path = ModernDesign.swift; sourceTree = "
  ++ [dquote] ++ lit "<group>" ++ [dquote] ++ lit "; };".

Definition build_file_mid : text :=
  lit " /* ModernDesign.swift in Sources */ = {isa = PBXBuildFile; fileRef = ".
Definition build_file_end : text := lit " /* ModernDesign.swift */; };".
Definition group_tail : text := lit " /* ModernDesign.swift */,".
Definition sources_tail : text := lit " /* ModernDesign.swift in Sources */,".

Definition file_ref (file_ref_id : text) : text :=
  [tab; tab] ++ file_ref_id ++ file_ref_tail.

Definition build_file (build_file_id file_ref_id : text) : text :=
  [tab; tab] ++ build_file_id ++ build_file_mid
  ++ file_ref_id ++ build_file_end.

(** The inserted texts: [chr(10) + file_ref], [chr(10) + build_file] and
    the two list items. *)
Definition file_ref_frag (file_ref_id : text) : text :=
  nl :: file_ref file_ref_id.

Definition build_file_frag (build_file_id file_ref_id : text) : text :=
  nl :: build_file build_file_id file_ref_id.

Definition group_frag (file_ref_id : text) : text :=
  [nl; tab; tab; tab; tab] ++ file_ref_id ++ group_tail.

Definition sources_frag (build_file_id : text) : text :=
  [nl; tab; tab; tab; tab] ++ build_file_id ++ sources_tail.

(** ** The patch: four insertions in the script's order *)

Definition add_file_ref (file_ref_id : text) : text -> text :=
  insert_after file_ref_marker (file_ref_frag file_ref_id).

Definition add_build_file (build_file_id file_ref_id : text) : text -> text :=
  insert_after build_file_marker (build_file_frag build_file_id file_ref_id).

Definition add_group_item (file_ref_id : text) : text -> text :=
  insert_after group_pattern (group_frag file_ref_id).

Definition add_sources_item (build_file_id : text) : text -> text :=
  insert_after sources_pattern (sources_frag build_file_id).

Definition patch (file_ref_id build_file_id : text) (content : text) : text :=
  add_sources_item build_file_id
    (add_group_item file_ref_id
       (add_build_file build_file_id file_ref_id
          (add_file_ref file_ref_id content))).

(** ** The whole script *)

(** The project file as the script meets it: its content when it can be
    read, and whether it can be opened for writing. *)
Record file := { readable : option text; writable : bool }.

Inductive outcome :=
| IOError
| Done (written : text) (stdout : list text).

Definition success_line : text :=
  lit "Successfully added ModernDesign.swift to Xcode project".
Definition file_ref_line (file_ref_id : text) : text :=
  lit "File Reference ID: " ++ file_ref_id.
Definition build_file_line (build_file_id : text) : text :=
  lit "Build File ID: " ++ build_file_id.

(** [r1] and [r2] are the random bits behind the two [uuid4] calls. *)
Definition main (f : file) (r1 r2 : N) : outcome :=
  match readable f with
  | None => IOError
  | Some content =>
      let file_ref_id := make_id r1 in
      let build_file_id := make_id r2 in
      let content := patch file_ref_id build_file_id content in
      if writable f then
        Done content [success_line; file_ref_line file_ref_id;
                      build_file_line build_file_id]
      else IOError
  end.

Definition stdout_of (o : outcome) : list text :=
  match o with IOError => [] | Done _ out => out end.

Definition written_of (o : outcome) : option text :=
  match o with IOError => None | Done w _ => Some w end.

(** The four (anchor, fragment) pairs, in the order the script applies
    them, and one step of the patch. *)
Definition steps (file_ref_id build_file_id : text) : list (text * text) :=
  [ (file_ref_marker, file_ref_frag file_ref_id);
    (build_file_marker, build_file_frag build_file_id file_ref_id);
    (group_pattern, group_frag file_ref_id);
    (sources_pattern, sources_frag build_file_id) ].

Definition step (c : text) (s : text * text) : text :=
  insert_after (fst s) (snd s) c.

Definition anchors : list text :=
  [file_ref_marker; build_file_marker; group_pattern; sources_pattern].

(** * Specification vocabulary *)

(** ** Occurrences of a pattern in a text *)

(** [occ_at n h i]: the pattern [n] matches in [h] at index [i]. *)
Definition occ_at (n h : text) (i : nat) : Prop :=
  exists pre post, h = pre ++ n ++ post /\ length pre = i.

Definition contains (n h : text) : Prop := exists i, occ_at n h i.

(** ** Identifiers *)

Definition is_upper_hex (c : ascii) : bool :=
  existsb (Ascii.eqb c) (lit "0123456789ABCDEF").
Definition is_lower_hex (c : ascii) : bool :=
  existsb (Ascii.eqb c) (lit "0123456789abcdef").

(** [str.lower] on one character, used to undo [upper_char]. *)
Definition lower_char (c : ascii) : ascii :=
  let n := nat_of_ascii c in
  if (65 <=? n) && (n <=? 90) then ascii_of_nat (n + 32) else c.

(** An identifier as the script produces them. *)
Definition is_id (s : text) : Prop :=
  length s = 24 /\ forallb is_upper_hex s = true.

(** ** Insertion-only edits *)

(** [spliced gs inp out]: [out] is [inp] with the texts [gs] put in, in
    this order from left to right, between consecutive blocks of [inp]. *)
Inductive spliced : list text -> text -> text -> Prop :=
| spliced_nil s : spliced [] s s
| spliced_cons b g gs inp out :
    spliced gs inp out -> spliced (g :: gs) (b ++ inp) (b ++ g ++ out).

(** The fragments the last three steps are due to insert, read off the
    input: one for each of their anchors found in it. *)
Definition due (id1 id2 content : text) : list text :=
  flat_map (fun s => match search (fst s) content with
                     | Some _ => [snd s]
                     | None => []
                     end) (tl (steps id1 id2)).

(** ** Patterns with unknown identifiers

    A fragment is known text around one or two identifiers.  To decide,
    for every identifier at once, where a pattern can match around a
    fragment, texts are abstracted to symbolic ones: a position holds a
    known character or some uppercase hexadecimal digit. *)

Definition stext := list (option ascii).

Definition known (s : text) : stext := map Some s.
Definition any_id : stext := repeat None 24.

Definition fits (a : option ascii) (c : ascii) : Prop :=
  match a with
  | Some d => c = d
  | None => is_upper_hex c = true
  end.

Definition instance (s : stext) (t : text) : Prop := Forall2 fits s t.

Definition may_eq (a b : option ascii) : bool :=
  match a, b with
  | Some c, Some d => Ascii.eqb c d
  | Some c, None | None, Some c => is_upper_hex c
  | None, None => true
  end.

(** [may_start n h]: some instance of [n] and some instance of [h] agree
    as far as both go. *)
Fixpoint may_start (n h : stext) : bool :=
  match n, h with
  | a :: n', b :: h' => may_eq a b && may_start n' h'
  | _, _ => true
  end.

(** Offsets inside [h] at which [n] may start, and offsets inside [n] at
    which [h] may start. *)
Definition inner_offsets (n h : stext) : list nat :=
  filter (fun k => may_start n (skipn k h)) (seq 0 (length h)).

Definition cross_offsets (n h : stext) : list nat :=
  filter (fun j => may_start (skipn j n) h) (seq 1 (length n - 1)).

Definition may_touch (n h : stext) : bool :=
  match inner_offsets n h, cross_offsets n h with
  | [], [] => false
  | _, _ => true
  end.

(** [avoids n f]: wherever [f] sits in a text, a match of [n] in that text
    lies wholly before it or wholly after it. *)
Definition avoids (n f : text) : Prop :=
  forall l1 l2 pre post,
    l1 ++ f ++ l2 = pre ++ n ++ post ->
    length pre + length n <= length l1 \/ length l1 + length f <= length pre.

(** The four fragments with their identifiers left open. *)
Definition sfile_ref_frag : stext :=
  known [nl; tab; tab] ++ any_id ++ known file_ref_tail.

Definition sbuild_file_frag : stext :=
  known [nl; tab; tab] ++ any_id ++ known build_file_mid
  ++ any_id ++ known build_file_end.

Definition sgroup_frag : stext :=
  known [nl; tab; tab; tab; tab] ++ any_id ++ known group_tail.

Definition ssources_frag : stext :=
  known [nl; tab; tab; tab; tab] ++ any_id ++ known sources_tail.

Definition sfrags : list stext :=
  [sfile_ref_frag; sbuild_file_frag; sgroup_frag; ssources_frag].

(** [is_frag f]: [f] is one of the four fragments, for some identifiers. *)
Definition is_frag (f : text) : Prop :=
  exists sf, In sf sfrags /\ instance sf f.

(** ** Well-formed project files *)

(** The two ways the section markers can share their [/]: the build-file
    marker starting on the last character of the file-reference marker,
    and the other way round. *)
Definition ref_then_build : text := file_ref_marker ++ tl build_file_marker.
Definition build_then_ref : text := build_file_marker ++ tl file_ref_marker.

(** Every pattern whose matches the proofs follow through a run. *)
Definition patterns : list text := anchors ++ [ref_then_build; build_then_ref].

(** The four anchors are in the text and the two section markers never
    share a character. *)
Definition well_formed (doc : text) : Prop :=
  Forall (fun a => contains a doc) anchors /\
  ~ contains ref_then_build doc /\ ~ contains build_then_ref doc.

(** ** Several runs in a row *)

(** The file after running the script once per pair of draws, each run
    reading what the run before it wrote. *)
Definition rerun (draws : list (N * N)) (content : text) : text :=
  fold_left (fun c d => patch (make_id (fst d)) (make_id (snd d)) c)
    draws content.

(** [apart doc x a]: in [doc], a match of [x] and a match of [a] never
    share a character. *)
Definition apart (doc x a : text) : Prop :=
  forall pre post px qx,
    doc = pre ++ a ++ post -> doc = px ++ x ++ qx ->
    length px + length x <= length pre \/ length pre + length a <= length px.

(** The fragments a run is due to insert, read off the input: one for
    each step whose anchor is found in it. *)
Definition planned (id1 id2 content : text) : list text :=
  flat_map (fun s => match search (fst s) content with
                     | Some _ => [snd s]
                     | None => []
                     end) (steps id1 id2).

(** The number of line breaks in a text. *)
Definition newlines (t : text) : nat := length (filter (Ascii.eqb nl) t).

(** A step of some run: one of the four anchors with one of the four
    fragments, for some identifiers. *)
Definition valid_step (s : text * text) : Prop :=
  In (fst s) anchors /\ is_frag (snd s).

(** ** Concrete project files *)

(** A small project file with the four anchors. *)
Definition sample_project : text :=
  lit "/* Begin PBXBuildFile section */"
  ++ [nl] ++ lit "/* Begin PBXFileReference section */"
  ++ [nl] ++ lit "children = (BB0002 /* ContentView.swift */,);"
  ++ [nl] ++ lit "files = (AA0002 /* ContentView.swift in Sources */,);".

Definition sample_file : file :=
  {| readable := Some sample_project; writable := true |}.

(** A group list that names [ContentView.swift] twice. *)
Definition twice_listed : text :=
  lit "(BB0002 /* ContentView.swift */,BB0002 /* ContentView.swift */,)".

(** A project file whose build-file marker starts on the closing [/] of
    the file-reference marker; the two list anchors are as usual. *)
Definition overlapped_project : text :=
  ref_then_build
  ++ [nl] ++ lit "children = (BB0002 /* ContentView.swift */,);"
  ++ [nl] ++ lit "files = (AA0002 /* ContentView.swift in Sources */,);".

(** A project file that lacks the file-reference section marker. *)
Definition no_ref_section : text :=
  lit "/* Begin PBXBuildFile section */"
  ++ [nl] ++ lit "children = (BB0002 /* ContentView.swift */,);"
  ++ [nl] ++ lit "files = (AA0002 /* ContentView.swift in Sources */,);".

(** The reference declaration on its own, as the only line of a file. *)
Definition declared_already : text := file_ref (make_id 0).

(** A text file that is not a project file. *)
Definition unrelated_file : text :=
  lit "// !$*UTF8*$!" ++ [nl] ++ lit "{ archiveVersion = 1; }".

(** * Searching *)

Section Search.

Lemma starts_with_iff n h :
  starts_with n h = true <-> exists post, h = n ++ post.
Proof.
  revert h; induction n as [|a n IH]; intros h; simpl.
  - split; [intros _; now exists h | reflexivity].
  - destruct h as [|b h].
    + split; [discriminate | intros [post H]; discriminate].
    + rewrite andb_true_iff, Ascii.eqb_eq, IH. split.
      * intros [-> [post ->]]. now exists post.
      * intros [post H]. injection H as -> ->. split; [reflexivity | now exists post].
Qed.

Lemma occ_at_0 n h : occ_at n h 0 <-> starts_with n h = true.
Proof.
  rewrite starts_with_iff. split.
  - intros (pre & post & -> & Hl). destruct pre; [|discriminate]. now exists post.
  - intros [post ->]. now exists [], post.
Qed.

Lemma occ_at_S n c h i : occ_at n (c :: h) (S i) <-> occ_at n h i.
Proof.
  split.
  - intros (pre & post & H & Hl). destruct pre as [|d pre]; [discriminate|].
    simpl in H, Hl. injection H as -> ->. injection Hl as <-. now exists pre, post.
  - intros (pre & post & -> & <-). now exists (c :: pre), post.
Qed.

Lemma occ_at_nil n i : occ_at n [] i -> i = 0.
Proof.
  intros (pre & post & H & <-). destruct pre; [reflexivity | discriminate].
Qed.

(** [search] returns a match, and the leftmost one. *)
Lemma search_Some n h i :
  search n h = Some i -> occ_at n h i /\ forall j, occ_at n h j -> i <= j.
Proof.
  revert i; induction h as [|c h IH]; intros i; simpl.
  - destruct (starts_with n []) eqn:E; [|discriminate].
    intros [= <-]. split; [now apply occ_at_0 | lia].
  - destruct (starts_with n (c :: h)) eqn:E.
    + intros [= <-]. split; [now apply occ_at_0 | lia].
    + destruct (search n h) as [k|]; [|discriminate]. simpl. intros [= <-].
      destruct (IH k eq_refl) as [Ho Hm]. split; [now apply occ_at_S|].
      intros [|j] Hj.
      * apply occ_at_0 in Hj. congruence.
      * apply occ_at_S in Hj. apply Hm in Hj. lia.
Qed.

Lemma search_None n h : search n h = None -> ~ contains n h.
Proof.
  induction h as [|c h IH]; simpl.
  - destruct (starts_with n []) eqn:E; [discriminate|]. intros _ [j Hj].
    pose proof (occ_at_nil _ _ Hj) as ->. apply occ_at_0 in Hj. congruence.
  - destruct (starts_with n (c :: h)) eqn:E; [discriminate|].
    destruct (search n h) as [k|]; [discriminate|]. intros _ [[|j] Hj].
    + apply occ_at_0 in Hj. congruence.
    + apply occ_at_S in Hj. apply IH; [reflexivity | now exists j].
Qed.

Lemma search_complete n h : contains n h -> exists i, search n h = Some i.
Proof.
  intros H. destruct (search n h) as [i|] eqn:E; [now exists i|].
  now apply search_None in E.
Qed.

Lemma search_None_iff n h : search n h = None <-> ~ contains n h.
Proof.
  split; [apply search_None|]. intros H.
  destruct (search n h) as [i|] eqn:E; [|reflexivity].
  exfalso. apply H. exists i. now apply search_Some.
Qed.

End Search.

(** * Splicing *)

Lemma splice_app pre post frag :
  splice (length pre) frag (pre ++ post) = pre ++ frag ++ post.
Proof.
  unfold splice. rewrite firstn_app, skipn_app, Nat.sub_diag, firstn_all,
    skipn_all. simpl. now rewrite app_nil_r.
Qed.

Lemma splice_length pos frag content :
  length (splice pos frag content) = length content + length frag.
Proof.
  unfold splice. rewrite !length_app.
  rewrite <- (firstn_skipn pos content) at 3. rewrite length_app. lia.
Qed.

(** What one insertion step does when its anchor is found. *)
Lemma insert_after_found anchor frag content i :
  search anchor content = Some i ->
  exists pre post,
    content = pre ++ anchor ++ post /\ length pre = i /\
    insert_after anchor frag content = pre ++ anchor ++ frag ++ post.
Proof.
  intros E. unfold insert_after. rewrite E.
  destruct (search_Some _ _ _ E) as [(pre & post & -> & Hl) _].
  exists pre, post. repeat split; [assumption|].
  rewrite <- Hl, <- length_app, app_assoc, splice_app, <- app_assoc.
  reflexivity.
Qed.

Lemma insert_after_missing anchor frag content :
  ~ contains anchor content -> insert_after anchor frag content = content.
Proof.
  intros H. unfold insert_after. apply search_None_iff in H. now rewrite H.
Qed.

(** * Identifiers *)

Section Identifiers.

Lemma hex_digits_length k n : length (hex_digits k n) = k.
Proof.
  revert n; induction k as [|k IH]; intros n; simpl; [reflexivity|].
  rewrite length_app, IH. simpl. lia.
Qed.

Lemma hex_digit_lower d : is_lower_hex (hex_digit (N.modulo d 16)) = true.
Proof.
  pose proof (N.mod_upper_bound d 16 ltac:(discriminate)) as Hd.
  set (m := N.modulo d 16) in *. clearbody m.
  assert (m = 0 \/ m = 1 \/ m = 2 \/ m = 3 \/ m = 4 \/ m = 5 \/ m = 6 \/
          m = 7 \/ m = 8 \/ m = 9 \/ m = 10 \/ m = 11 \/ m = 12 \/
          m = 13 \/ m = 14 \/ m = 15)%N as H by lia.
  repeat (destruct H as [-> | H]; [reflexivity|]). now subst.
Qed.

Lemma hex_digits_lower k n : forallb is_lower_hex (hex_digits k n) = true.
Proof.
  revert n; induction k as [|k IH]; intros n; simpl; [reflexivity|].
  rewrite forallb_app, IH. simpl. now rewrite hex_digit_lower.
Qed.

Lemma lower_hex_cases c :
  is_lower_hex c = true -> In c (lit "0123456789abcdef").
Proof.
  unfold is_lower_hex. rewrite existsb_exists. intros (d & Hd & E).
  apply Ascii.eqb_eq in E. now subst.
Qed.

Lemma upper_char_hex c :
  is_lower_hex c = true ->
  is_upper_hex (upper_char c) = true /\ lower_char (upper_char c) = c.
Proof.
  intros H. apply lower_hex_cases in H. simpl in H.
  repeat (destruct H as [<- | H]; [split; reflexivity|]). contradiction.
Qed.

Lemma upper_hex s :
  forallb is_lower_hex s = true ->
  forallb is_upper_hex (upper s) = true /\ map lower_char (upper s) = s.
Proof.
  induction s as [|c s IH]; simpl; [now split|].
  rewrite andb_true_iff. intros [Hc Hs].
  destruct (upper_char_hex c Hc) as [-> ->], (IH Hs) as [-> ->]. now split.
Qed.

Lemma forallb_firstn {A} (f : A -> bool) k l :
  forallb f l = true -> forallb f (firstn k l) = true.
Proof.
  intros H. rewrite <- (firstn_skipn k l), forallb_app in H.
  now apply andb_true_iff in H.
Qed.

Lemma make_id_is_id r : is_id (make_id r).
Proof.
  unfold is_id, make_id. split.
  - unfold upper. rewrite length_map, length_firstn. unfold hex.
    rewrite hex_digits_length. reflexivity.
  - apply upper_hex, forallb_firstn, hex_digits_lower.
Qed.

End Identifiers.

(** C5: each generated identifier has exactly 24 characters, all of them
    uppercase hexadecimal digits, and the two identifiers of a run differ
    whenever the first 24 hexadecimal characters of the two draws differ. *)
Theorem generated_ids_wellformed (r1 r2 : N) :
  (length (make_id r1) = 24 /\ forallb is_upper_hex (make_id r1) = true) /\
  (length (make_id r2) = 24 /\ forallb is_upper_hex (make_id r2) = true) /\
  (firstn 24 (hex (uuid4 r1)) <> firstn 24 (hex (uuid4 r2)) ->
   make_id r1 <> make_id r2).
Proof.
  split; [apply make_id_is_id|]. split; [apply make_id_is_id|].
  intros Hne Heq. apply Hne. unfold make_id in Heq.
  assert (L : forall r, map lower_char (upper (firstn 24 (hex (uuid4 r))))
                        = firstn 24 (hex (uuid4 r))).
  { intros r. apply upper_hex, forallb_firstn, hex_digits_lower. }
  rewrite <- (L r1), <- (L r2). now rewrite Heq.
Qed.

Lemma generated_ids_wellformed_witness :
  firstn 24 (hex (uuid4 0)) <> firstn 24 (hex (uuid4 (2 ^ 100))) /\
  make_id 0 <> make_id (2 ^ 100).
Proof.
  assert (H : firstn 24 (hex (uuid4 0)) <> firstn 24 (hex (uuid4 (2 ^ 100))))
    by (vm_compute; discriminate).
  split; [exact H|].
  exact (proj2 (proj2 (generated_ids_wellformed 0 (2 ^ 100))) H).
Defined.

(** * The four steps, one at a time *)

Lemma patch_steps id1 id2 content :
  patch id1 id2 content =
  fold_left step (steps id1 id2) content.
Proof. reflexivity. Qed.

Lemma insert_after_contains anchor frag content :
  contains anchor content ->
  exists pre post,
    content = pre ++ anchor ++ post /\
    (forall j, occ_at anchor content j -> length pre <= j) /\
    insert_after anchor frag content = pre ++ anchor ++ frag ++ post.
Proof.
  intros H. destruct (search_complete _ _ H) as [i E].
  destruct (insert_after_found _ frag _ _ E) as (pre & post & H1 & H2 & H3).
  exists pre, post. repeat split; try assumption.
  rewrite H2. now apply search_Some.
Qed.

(** C3: in each of the four steps, when the anchor is in the text the step
    works on, the result is the text up to and including the anchor, then
    the inserted fragment (a newline and the declaration or list item),
    then the rest of that text unchanged. *)
Theorem inserted_immediately_after_anchor (id1 id2 content : text) :
  (contains file_ref_marker content ->
   exists pre post, content = pre ++ file_ref_marker ++ post /\
     add_file_ref id1 content =
       (pre ++ file_ref_marker) ++ (nl :: file_ref id1) ++ post) /\
  (contains build_file_marker content ->
   exists pre post, content = pre ++ build_file_marker ++ post /\
     add_build_file id2 id1 content =
       (pre ++ build_file_marker) ++ (nl :: build_file id2 id1) ++ post) /\
  (contains group_pattern content ->
   exists pre post, content = pre ++ group_pattern ++ post /\
     add_group_item id1 content =
       (pre ++ group_pattern) ++ group_frag id1 ++ post) /\
  (contains sources_pattern content ->
   exists pre post, content = pre ++ sources_pattern ++ post /\
     add_sources_item id2 content =
       (pre ++ sources_pattern) ++ sources_frag id2 ++ post).
Proof.
  repeat split; intros H; unfold add_file_ref, add_build_file,
    add_group_item, add_sources_item;
    match goal with
    | |- context [insert_after _ ?f _] =>
        destruct (insert_after_contains _ f _ H) as (pre & post & H1 & _ & H3)
    end;
    exists pre, post; (split; [exact H1 | rewrite <- app_assoc; exact H3]).
Qed.

Lemma sample_has_anchors :
  contains file_ref_marker sample_project /\
  contains build_file_marker sample_project /\
  contains group_pattern sample_project /\
  contains sources_pattern sample_project.
Proof.
  repeat split;
    match goal with
    | |- contains ?a ?h =>
        destruct (search a h) as [i|] eqn:E; [|vm_compute in E; discriminate];
        exists i; now apply search_Some
    end.
Qed.

Lemma inserted_immediately_after_anchor_witness :
  (exists pre post, sample_project = pre ++ file_ref_marker ++ post /\
     add_file_ref (make_id 1) sample_project =
       (pre ++ file_ref_marker) ++ (nl :: file_ref (make_id 1)) ++ post) /\
  (exists pre post, sample_project = pre ++ build_file_marker ++ post /\
     add_build_file (make_id 2) (make_id 1) sample_project =
       (pre ++ build_file_marker)
       ++ (nl :: build_file (make_id 2) (make_id 1)) ++ post) /\
  (exists pre post, sample_project = pre ++ group_pattern ++ post /\
     add_group_item (make_id 1) sample_project =
       (pre ++ group_pattern) ++ group_frag (make_id 1) ++ post) /\
  (exists pre post, sample_project = pre ++ sources_pattern ++ post /\
     add_sources_item (make_id 2) sample_project =
       (pre ++ sources_pattern) ++ sources_frag (make_id 2) ++ post).
Proof.
  destruct (inserted_immediately_after_anchor (make_id 1) (make_id 2)
              sample_project) as (H1 & H2 & H3 & H4).
  destruct sample_has_anchors as (A1 & A2 & A3 & A4).
  repeat split; [apply H1 | apply H2 | apply H3 | apply H4]; assumption.
Defined.

(** C10: a step whose anchor matches at several places inserts its
    fragment once, right after the leftmost match, and nowhere else; a
    step never adds more than one fragment. *)
Theorem inserted_once_after_leftmost (id1 id2 anchor frag content : text) (j : nat) :
  In (anchor, frag) (steps id1 id2) ->
  occ_at anchor content j ->
  exists pre post,
    length pre <= j /\
    (forall k, occ_at anchor content k -> length pre <= k) /\
    content = pre ++ anchor ++ post /\
    insert_after anchor frag content = pre ++ anchor ++ frag ++ post /\
    length (insert_after anchor frag content) = length content + length frag.
Proof.
  intros _ Hj.
  destruct (insert_after_contains anchor frag content (ex_intro _ j Hj))
    as (pre & post & H1 & H2 & H3).
  exists pre, post. repeat split; auto.
  rewrite H3, H1, !length_app. lia.
Qed.

Lemma inserted_once_after_leftmost_witness :
  occ_at group_pattern twice_listed 32 /\
  exists pre post,
    length pre <= 32 /\
    (forall k, occ_at group_pattern twice_listed k -> length pre <= k) /\
    twice_listed = pre ++ group_pattern ++ post /\
    insert_after group_pattern (group_frag (make_id 1)) twice_listed
      = pre ++ group_pattern ++ group_frag (make_id 1) ++ post /\
    length (insert_after group_pattern (group_frag (make_id 1)) twice_listed)
      = length twice_listed + length (group_frag (make_id 1)).
Proof.
  assert (Hin : In (group_pattern, group_frag (make_id 1))
                  (steps (make_id 1) (make_id 2)))
    by (right; right; left; reflexivity).
  assert (Hocc : occ_at group_pattern twice_listed 32).
  { exists (lit "(BB0002 /* ContentView.swift */,"), (lit ")").
    split; reflexivity. }
  split; [exact Hocc|].
  exact (inserted_once_after_leftmost _ _ _ _ _ _ Hin Hocc).
Defined.

(** * What the script prints *)

(** C6 (as the script is written): in the scenario with the four anchors in
    the file, standard output is the success message first, then the line
    with the file-reference identifier, then the line with the build-file
    identifier; both identifiers are 24 uppercase hexadecimal digits. *)
Theorem stdout_success_then_ids (content : text) (r1 r2 : N) :
  contains file_ref_marker content ->
  contains build_file_marker content ->
  contains group_pattern content ->
  contains sources_pattern content ->
  stdout_of (main {| readable := Some content; writable := true |} r1 r2)
    = [ success_line;
        lit "File Reference ID: " ++ make_id r1;
        lit "Build File ID: " ++ make_id r2 ] /\
  is_id (make_id r1) /\ is_id (make_id r2).
Proof.
  intros _ _ _ _. split; [reflexivity|]. split; apply make_id_is_id.
Qed.

Lemma stdout_success_then_ids_witness :
  stdout_of (main sample_file 1 2)
    = [ success_line;
        lit "File Reference ID: " ++ make_id 1;
        lit "Build File ID: " ++ make_id 2 ] /\
  is_id (make_id 1) /\ is_id (make_id 2).
Proof.
  destruct sample_has_anchors as (A1 & A2 & A3 & A4).
  exact (stdout_success_then_ids sample_project 1 2 A1 A2 A3 A4).
Defined.

(** C6, as the claim words it, fails on the sample project: the first line
    printed is the success message and the last one is an identifier line. *)
Lemma stdout_ids_first_refuted :
  ~ (exists l1 l2 l3,
       stdout_of (main sample_file 1 2) = [l1; l2; l3] /\
       contains (make_id 1) l1 /\ contains (make_id 2) l2 /\
       l3 = success_line).
Proof.
  intros (l1 & l2 & l3 & H & _ & _ & H3).
  vm_compute in H. injection H as _ _ <-. vm_compute in H3. discriminate.
Qed.

(** C7: whenever the file can be read and written, the script prints the
    success message and the two identifier lines, whatever the file holds:
    two files give the same output under the same draws, so the output
    does not tell a full patch from a partial one. *)
Theorem stdout_unconditional (content content' : text) (r1 r2 : N) :
  stdout_of (main {| readable := Some content; writable := true |} r1 r2)
    = [success_line; file_ref_line (make_id r1); build_file_line (make_id r2)]
  /\
  stdout_of (main {| readable := Some content; writable := true |} r1 r2)
    = stdout_of (main {| readable := Some content'; writable := true |} r1 r2).
Proof. split; reflexivity. Qed.

(** C9: the run is a function of the file and of the two identifiers
    only: two runs on the same file whose draws give the same pair of
    identifiers write the same text and print the same lines. *)
Theorem run_determined_by_ids (f : file) (r1 r2 r1' r2' : N) :
  make_id r1 = make_id r1' ->
  make_id r2 = make_id r2' ->
  main f r1 r2 = main f r1' r2'.
Proof.
  intros H1 H2. unfold main. destruct (readable f); [|reflexivity].
  cbv zeta. now rewrite H1, H2.
Qed.

Lemma run_determined_by_ids_witness :
  make_id 1 = make_id 2 /\ make_id (2 ^ 100) = make_id (2 ^ 100 + 7) /\
  main sample_file 1 (2 ^ 100) = main sample_file 2 (2 ^ 100 + 7).
Proof.
  assert (H1 : make_id 1 = make_id 2) by reflexivity.
  assert (H2 : make_id (2 ^ 100) = make_id (2 ^ 100 + 7)) by reflexivity.
  split; [exact H1|]. split; [exact H2|].
  exact (run_determined_by_ids sample_file _ _ _ _ H1 H2).
Defined.

(** * The frame: what an insertion leaves alone *)

Section Frame.

Lemma splice_app_l p f (l1 l2 : text) :
  p <= length l1 -> splice p f (l1 ++ l2) = splice p f l1 ++ l2.
Proof.
  intros H. unfold splice. rewrite firstn_app, skipn_app.
  replace (p - length l1) with 0 by lia. simpl.
  now rewrite app_nil_r, <- !app_assoc.
Qed.

Lemma splice_app_r p f (l1 l2 : text) :
  length l1 <= p -> splice p f (l1 ++ l2) = l1 ++ splice (p - length l1) f l2.
Proof.
  intros H. unfold splice. rewrite firstn_app, skipn_app.
  rewrite firstn_all2, skipn_all2 by assumption. simpl.
  now rewrite <- !app_assoc.
Qed.

Lemma spliced_length gs inp out :
  spliced gs inp out -> length out = length inp + length (concat gs).
Proof.
  induction 1 as [s | b g gs inp out _ IH]; simpl; [lia|].
  rewrite !length_app, IH. lia.
Qed.

(** Splicing one more text in keeps the input blocks in order and adds at
    most one gap. *)
Lemma spliced_splice gs inp out p f :
  spliced gs inp out ->
  exists gs', length gs' <= S (length gs) /\ spliced gs' inp (splice p f out).
Proof.
  intros H; revert p; induction H as [s | b g gs inp out H IH]; intros p.
  - exists [f]. split; [simpl; lia|]. unfold splice.
    rewrite <- (firstn_skipn p s) at 1. repeat constructor.
  - destruct (Nat.le_gt_cases p (length b)) as [Hp | Hp].
    + exists (f :: g :: gs). split; [simpl; lia|].
      rewrite splice_app_l by assumption. unfold splice.
      rewrite <- (firstn_skipn p b) at 1. rewrite <- !app_assoc.
      repeat constructor. exact H.
    + rewrite splice_app_r by lia.
      destruct (Nat.le_gt_cases (p - length b) (length g)) as [Hg | Hg].
      * exists ((splice (p - length b) f g) :: gs). split; [simpl; lia|].
        rewrite splice_app_l by assumption. now constructor.
      * rewrite splice_app_r by lia.
        destruct (IH (p - length b - length g)) as (gs' & Hl & Hs).
        exists (g :: gs'). split; [simpl; lia|]. now constructor.
Qed.

Lemma spliced_insert_after gs inp out anchor frag :
  spliced gs inp out ->
  exists gs', length gs' <= S (length gs) /\
              spliced gs' inp (insert_after anchor frag out).
Proof.
  intros H. unfold insert_after. destruct (search anchor out) as [i|].
  - now apply spliced_splice.
  - exists gs. split; [lia | exact H].
Qed.

(** Gaps may be empty, so a splicing with fewer gaps is one with more. *)
Lemma spliced_pad gs inp out :
  spliced gs inp out -> spliced (gs ++ [[]]) inp out.
Proof.
  induction 1 as [s | b g gs inp out _ IH]; simpl.
  - pose proof (spliced_cons s [] [] [] [] (spliced_nil [])) as H.
    simpl in H. now rewrite app_nil_r in H.
  - now constructor.
Qed.

Lemma spliced_pad_to n gs inp out :
  spliced gs inp out -> length gs <= n ->
  exists gs', length gs' = n /\ spliced gs' inp out.
Proof.
  intros H Hl. remember (n - length gs) as d eqn:Hd.
  revert gs H Hl Hd; induction d as [|d IH]; intros gs H Hl Hd.
  - exists gs. split; [lia | exact H].
  - apply (IH (gs ++ [[]])).
    + now apply spliced_pad.
    + rewrite length_app. simpl. lia.
    + rewrite length_app. simpl. lia.
Qed.

Lemma patch_spliced id1 id2 content :
  exists gs, length gs <= 4 /\ spliced gs content (patch id1 id2 content).
Proof.
  unfold patch, add_sources_item, add_group_item, add_build_file, add_file_ref.
  destruct (spliced_insert_after [] content content file_ref_marker
              (file_ref_frag id1) (spliced_nil _)) as (g1 & L1 & S1).
  destruct (spliced_insert_after _ _ _ build_file_marker
              (build_file_frag id2 id1) S1) as (g2 & L2 & S2).
  destruct (spliced_insert_after _ _ _ group_pattern
              (group_frag id1) S2) as (g3 & L3 & S3).
  destruct (spliced_insert_after _ _ _ sources_pattern
              (sources_frag id2) S3) as (g4 & L4 & S4).
  exists g4. split; [simpl in *; lia | exact S4].
Qed.

Lemma spliced_four g1 g2 g3 g4 inp out :
  spliced [g1; g2; g3; g4] inp out ->
  exists b0 b1 b2 b3 b4 : text,
    inp = b0 ++ b1 ++ b2 ++ b3 ++ b4 /\
    out = b0 ++ g1 ++ b1 ++ g2 ++ b2 ++ g3 ++ b3 ++ g4 ++ b4.
Proof.
  intros S0.
  inversion S0 as [| b0 ? ? i0 o0 S1]; subst; clear S0.
  inversion S1 as [| b1 ? ? i1 o1 S2]; subst; clear S1.
  inversion S2 as [| b2 ? ? i2 o2 S3]; subst; clear S2.
  inversion S3 as [| b3 ? ? i3 o3 S4]; subst; clear S3.
  inversion S4; subst; clear S4.
  repeat eexists.
Qed.

End Frame.

(** C8: the output is the input with at most four texts put in: the input
    splits into five consecutive blocks (some possibly empty) that appear
    unchanged and in order in the output, with the inserted texts between
    them; nothing of the input is deleted or altered. *)
Theorem patch_only_inserts (id1 id2 content : text) :
  exists b0 b1 b2 b3 b4 g1 g2 g3 g4 : text,
    content = b0 ++ b1 ++ b2 ++ b3 ++ b4 /\
    patch id1 id2 content
      = b0 ++ g1 ++ b1 ++ g2 ++ b2 ++ g3 ++ b3 ++ g4 ++ b4.
Proof.
  destruct (patch_spliced id1 id2 content) as (gs & Hl & Hs).
  destruct (spliced_pad_to 4 _ _ _ Hs Hl) as (gs' & Hl' & Hs').
  destruct gs' as [|g1 [|g2 [|g3 [|g4 [|g5 gs']]]]]; try discriminate.
  destruct (spliced_four _ _ _ _ _ _ Hs') as (b0 & b1 & b2 & b3 & b4 & E1 & E2).
  now exists b0, b1, b2, b3, b4, g1, g2, g3, g4.
Qed.

(** * Matching around fragments *)

Section Symbolic.

Lemma instance_known s : instance (known s) s.
Proof. induction s; constructor; [reflexivity | assumption]. Qed.

Lemma instance_any_id s : is_id s -> instance any_id s.
Proof.
  intros [Hl Hh]. unfold any_id. rewrite <- Hl. clear Hl.
  induction s as [|c s IH]; simpl in *; constructor.
  - now apply andb_true_iff in Hh.
  - apply IH. now apply andb_true_iff in Hh.
Qed.

Lemma instance_app s1 s2 t1 t2 :
  instance s1 t1 -> instance s2 t2 -> instance (s1 ++ s2) (t1 ++ t2).
Proof. apply Forall2_app. Qed.

Lemma instance_length s t : instance s t -> length s = length t.
Proof. apply Forall2_length. Qed.

Lemma instance_skipn k s t : instance s t -> instance (skipn k s) (skipn k t).
Proof.
  intros H; revert k; induction H; intros [|k]; simpl; try constructor; auto.
Qed.

Lemma may_eq_fits a b c : fits a c -> fits b c -> may_eq a b = true.
Proof.
  destruct a, b; simpl; intros; subst; auto. apply Ascii.eqb_refl.
Qed.

(** If instances of [n] and [h] agree from their first characters on, as
    far as both go, the symbolic check says so. *)
Lemma may_start_sound sn sh n h l2 post :
  instance sn n -> instance sh h -> h ++ l2 = n ++ post ->
  may_start sn sh = true.
Proof.
  intros Hn; revert sh h; induction Hn as [|a c sn n Ha Hn IH];
    intros sh h Hh E; [reflexivity|].
  destruct Hh as [|b d sh h Hb Hh]; [reflexivity|].
  simpl in E. injection E as -> E. simpl.
  rewrite (may_eq_fits a b c Ha Hb). simpl. eapply IH; eassumption.
Qed.

Lemma skipn_app_le {A} k (l m : list A) :
  k <= length l -> skipn k (l ++ m) = skipn k l ++ m.
Proof.
  intros H. rewrite skipn_app. now replace (k - length l) with 0 by lia.
Qed.

Lemma skipn_app_ge {A} k (l m : list A) :
  length l <= k -> skipn k (l ++ m) = skipn (k - length l) m.
Proof. intros H. now rewrite skipn_app, skipn_all2. Qed.

(** A match that starts inside the fragment. *)
Lemma starts_inside sn sf n f l1 l2 pre post :
  instance sn n -> instance sf f ->
  l1 ++ f ++ l2 = pre ++ n ++ post ->
  length l1 <= length pre < length l1 + length f ->
  In (length pre - length l1) (inner_offsets sn sf).
Proof.
  intros Hn Hf E [H1 H2]. apply filter_In. split.
  - apply in_seq. rewrite (instance_length _ _ Hf). lia.
  - apply (f_equal (skipn (length pre))) in E.
    rewrite skipn_app_ge, skipn_app_le in E by lia.
    rewrite (skipn_app_le (length pre)), skipn_all in E by lia.
    eapply may_start_sound;
      [exact Hn | apply instance_skipn; exact Hf | exact E].
Qed.

(** A match that starts before the fragment and runs into it. *)
Lemma crosses_into sn sf n f l1 l2 pre post :
  instance sn n -> instance sf f ->
  l1 ++ f ++ l2 = pre ++ n ++ post ->
  length pre < length l1 < length pre + length n ->
  In (length l1 - length pre) (cross_offsets sn sf).
Proof.
  intros Hn Hf E [H1 H2]. apply filter_In. split.
  - apply in_seq. rewrite (instance_length _ _ Hn). lia.
  - apply (f_equal (skipn (length l1))) in E.
    rewrite (skipn_app_le (length l1)), skipn_all in E by lia.
    rewrite skipn_app_ge, skipn_app_le in E by lia. simpl in E.
    eapply may_start_sound;
      [apply instance_skipn; exact Hn | exact Hf | exact E].
Qed.

Lemma avoids_sound sn sf n f :
  instance sn n -> instance sf f -> may_touch sn sf = false -> avoids n f.
Proof.
  intros Hn Hf Hc l1 l2 pre post E. unfold may_touch in Hc.
  destruct (Nat.le_gt_cases (length pre + length n) (length l1)); [now left|].
  destruct (Nat.le_gt_cases (length l1 + length f) (length pre)); [now right|].
  exfalso. destruct (Nat.le_gt_cases (length l1) (length pre)).
  - pose proof (starts_inside _ _ _ _ _ _ _ _ Hn Hf E ltac:(lia)) as Hin.
    destruct (inner_offsets sn sf); [destruct Hin|].
    destruct (cross_offsets sn sf); discriminate.
  - pose proof (crosses_into _ _ _ _ _ _ _ _ Hn Hf E ltac:(lia)) as Hin.
    destruct (cross_offsets sn sf); [destruct Hin|].
    destruct (inner_offsets sn sf); discriminate.
Qed.

End Symbolic.

(** * Anchors and fragments of this script *)

Section Table.

Lemma frag_instances id1 id2 :
  is_id id1 -> is_id id2 ->
  instance sfile_ref_frag (file_ref_frag id1) /\
  instance sbuild_file_frag (build_file_frag id2 id1) /\
  instance sgroup_frag (group_frag id1) /\
  instance ssources_frag (sources_frag id2).
Proof.
  intros H1 H2. apply instance_any_id in H1, H2.
  repeat split.
  - apply (instance_app (known [nl; tab; tab]) _ [nl; tab; tab]);
      [apply instance_known|].
    apply instance_app; [assumption | apply instance_known].
  - apply (instance_app (known [nl; tab; tab]) _ [nl; tab; tab]);
      [apply instance_known|].
    repeat (apply instance_app; try assumption; try apply instance_known).
  - apply (instance_app (known [nl; tab; tab; tab; tab]) _
             [nl; tab; tab; tab; tab]); [apply instance_known|].
    apply instance_app; [assumption | apply instance_known].
  - apply (instance_app (known [nl; tab; tab; tab; tab]) _
             [nl; tab; tab; tab; tab]); [apply instance_known|].
    apply instance_app; [assumption | apply instance_known].
Qed.

Lemma steps_are_frags id1 id2 a f :
  is_id id1 -> is_id id2 -> In (a, f) (steps id1 id2) ->
  In a anchors /\ is_frag f.
Proof.
  intros H1 H2 Hin.
  destruct (frag_instances id1 id2 H1 H2) as (I1 & I2 & I3 & I4).
  simpl in Hin. decompose [or] Hin; clear Hin;
    try contradiction;
    match goal with H : (_, _) = (_, _) |- _ => injection H as <- <- end;
    (split; [simpl; tauto|]).
  - exists sfile_ref_frag. split; [simpl; tauto | assumption].
  - exists sbuild_file_frag. split; [simpl; tauto | assumption].
  - exists sgroup_frag. split; [simpl; tauto | assumption].
  - exists ssources_frag. split; [simpl; tauto | assumption].
Qed.

(** No anchor, and neither of the two overlapped marker pairs, can match
    across or inside a fragment, whatever the identifiers. *)
Lemma pattern_avoids_frag a f : In a patterns -> is_frag f -> avoids a f.
Proof.
  intros Ha (sf & Hsf & Hf).
  assert (T : forallb (fun a => forallb (fun sf => negb (may_touch (known a) sf))
                                  sfrags) patterns = true) by (vm_compute; reflexivity).
  rewrite forallb_forall in T. specialize (T a Ha).
  rewrite forallb_forall in T. specialize (T sf Hsf).
  apply negb_true_iff in T.
  exact (avoids_sound _ _ _ _ (instance_known a) Hf T).
Qed.

End Table.

(** * Which matches an insertion keeps *)

Section Presence.

Lemma app_eq_split {A} (x y u v : list A) :
  x ++ y = u ++ v -> length x <= length u ->
  exists w, u = x ++ w /\ y = w ++ v.
Proof.
  revert u; induction x as [|a x IH]; intros u E Hl; simpl in *.
  - now exists u.
  - destruct u as [|b u]; [simpl in Hl; lia|].
    simpl in E. injection E as -> E.
    destruct (IH u E) as (w & -> & ->); [simpl in Hl; lia|]. now exists w.
Qed.

Lemma contains_intro x pre post : contains x (pre ++ x ++ post).
Proof. exists (length pre), pre, post. now split. Qed.

Lemma contains_app_l x l m : contains x l -> contains x (l ++ m).
Proof.
  intros (i & pre & post & -> & _). rewrite <- !app_assoc.
  apply contains_intro.
Qed.

Lemma contains_app_r x l m : contains x m -> contains x (l ++ m).
Proof.
  intros (i & pre & post & -> & _). rewrite app_assoc.
  apply contains_intro.
Qed.

(** A match that ends within [l1] is a match in [l1]. *)
Lemma occ_before (x l1 m pre post : text) :
  l1 ++ m = pre ++ x ++ post -> length pre + length x <= length l1 ->
  contains x l1.
Proof.
  intros E Hl. rewrite app_assoc in E. symmetry in E.
  destruct (app_eq_split _ _ _ _ E) as (w & -> & _);
    [rewrite length_app; lia|].
  rewrite <- app_assoc. apply contains_intro.
Qed.

(** A match that starts after [l1] is a match in the rest. *)
Lemma occ_after (x l1 m pre post : text) :
  l1 ++ m = pre ++ x ++ post -> length l1 <= length pre ->
  contains x m.
Proof.
  intros E Hl. destruct (app_eq_split _ _ _ _ E Hl) as (w & -> & ->).
  apply contains_intro.
Qed.

(** Putting a fragment in creates no match of a pattern that avoids it. *)
Lemma avoids_no_new_match x f l1 l2 :
  avoids x f -> contains x (l1 ++ f ++ l2) -> contains x (l1 ++ l2).
Proof.
  intros Hav (i & pre & post & E & _).
  destruct (Hav _ _ _ _ E) as [H | H].
  - apply contains_app_l. eapply occ_before; eassumption.
  - apply contains_app_r. rewrite app_assoc in E.
    eapply occ_after; [exact E | rewrite length_app; lia].
Qed.

(** A pattern that avoids the anchor keeps a match when a fragment is put
    in after the anchor. *)
Lemma avoids_keeps_match x a f pre post :
  avoids x a -> contains x (pre ++ a ++ post) ->
  contains x (pre ++ a ++ f ++ post).
Proof.
  intros Hav (i & px & qx & E & _).
  destruct (Hav _ _ _ _ E) as [H | H].
  - apply contains_app_l. eapply occ_before; eassumption.
  - rewrite !app_assoc. apply contains_app_r.
    rewrite app_assoc in E. eapply occ_after; [exact E|].
    rewrite length_app; lia.
Qed.

(** What a match that starts inside a region looks like from there on. *)
Lemma inside_eq (n f l1 l2 pre post : text) :
  l1 ++ f ++ l2 = pre ++ n ++ post ->
  length l1 <= length pre < length l1 + length f ->
  skipn (length pre - length l1) f ++ l2 = n ++ post.
Proof.
  intros E [H1 H2]. apply (f_equal (skipn (length pre))) in E.
  rewrite skipn_app_ge, skipn_app_le in E by lia.
  now rewrite (skipn_app_le (length pre)), skipn_all in E by lia.
Qed.

Lemma avoids_known x a :
  may_touch (known x) (known a) = false -> avoids x a.
Proof. apply avoids_sound; apply instance_known. Qed.

(** The one way a build-file marker can be cut by the insertion after a
    file-reference marker: it starts on that marker's closing [/]. *)
Lemma build_marker_survives f pre post :
  contains build_file_marker (pre ++ file_ref_marker ++ post) ->
  ~ contains ref_then_build (pre ++ file_ref_marker ++ post) ->
  contains build_file_marker (pre ++ file_ref_marker ++ f ++ post).
Proof.
  intros (i & px & qx & E & _) HJ.
  destruct (Nat.le_gt_cases (length px + length build_file_marker)
              (length (pre ++ file_ref_marker))) as [H | H].
  { rewrite app_assoc. apply contains_app_l. rewrite app_assoc in E.
    eapply occ_before; eassumption. }
  destruct (Nat.le_gt_cases (length (pre ++ file_ref_marker)) (length px))
    as [H' | H'].
  { rewrite !app_assoc. apply contains_app_r. rewrite app_assoc in E.
    eapply occ_after; eassumption. }
  exfalso. apply HJ. rewrite length_app in H, H'.
  change (length file_ref_marker) with 36 in *.
  change (length build_file_marker) with 32 in *.
  assert (R : length pre <= length px
              < length pre + length file_ref_marker)
    by (change (length file_ref_marker) with 36; lia).
  pose proof (starts_inside _ _ _ _ _ _ _ _ (instance_known _)
                (instance_known _) E R) as Hin.
  pose proof (inside_eq _ _ _ _ _ _ E R) as Eq.
  assert (T : inner_offsets (known build_file_marker) (known file_ref_marker)
              = [35]) by (vm_compute; reflexivity).
  rewrite T in Hin. destruct Hin as [Hk | []]. rewrite <- Hk in Eq.
  injection Eq as ->. exact (contains_intro ref_then_build pre qx).
Qed.

(** And the other way round: a file-reference marker is cut by the
    insertion after a build-file marker only when it starts on that
    marker's closing [/]. *)
Lemma ref_marker_survives f pre post :
  contains file_ref_marker (pre ++ build_file_marker ++ post) ->
  ~ contains build_then_ref (pre ++ build_file_marker ++ post) ->
  contains file_ref_marker (pre ++ build_file_marker ++ f ++ post).
Proof.
  intros (i & px & qx & E & _) HJ.
  destruct (Nat.le_gt_cases (length px + length file_ref_marker)
              (length (pre ++ build_file_marker))) as [H | H].
  { rewrite app_assoc. apply contains_app_l. rewrite app_assoc in E.
    eapply occ_before; eassumption. }
  destruct (Nat.le_gt_cases (length (pre ++ build_file_marker)) (length px))
    as [H' | H'].
  { rewrite !app_assoc. apply contains_app_r. rewrite app_assoc in E.
    eapply occ_after; eassumption. }
  exfalso. rewrite length_app in H, H'.
  change (length file_ref_marker) with 36 in *.
  change (length build_file_marker) with 32 in *.
  destruct (Nat.le_gt_cases (length pre) (length px)) as [L | L].
  - apply HJ.
    assert (R : length pre <= length px
                < length pre + length build_file_marker)
      by (change (length build_file_marker) with 32; lia).
    pose proof (starts_inside _ _ _ _ _ _ _ _ (instance_known _)
                  (instance_known _) E R) as Hin.
    pose proof (inside_eq _ _ _ _ _ _ E R) as Eq.
    assert (T : inner_offsets (known file_ref_marker) (known build_file_marker)
                = [31]) by (vm_compute; reflexivity).
    rewrite T in Hin. destruct Hin as [Hk | []]. rewrite <- Hk in Eq.
    injection Eq as ->. exact (contains_intro build_then_ref pre qx).
  - assert (R : length px < length pre < length px + length file_ref_marker)
      by (change (length file_ref_marker) with 36; lia).
    pose proof (crosses_into _ _ _ _ _ _ _ _ (instance_known _)
                  (instance_known _) E R) as Hin.
    assert (T : cross_offsets (known file_ref_marker) (known build_file_marker)
                = [35]) by (vm_compute; reflexivity).
    rewrite T in Hin. destruct Hin as [Hk | []]. lia.
Qed.

End Presence.

(** * Insertions that leave earlier fragments whole *)

Section Whole.

(** Putting [f] in after a match of [a] that touches none of the gaps
    adds [f] as one more gap. *)
Lemma spliced_at_match gs inp a f pre post :
  spliced gs inp (pre ++ a ++ post) -> Forall (avoids a) gs ->
  exists gs', Permutation gs' (f :: gs) /\
              spliced gs' inp (pre ++ a ++ f ++ post).
Proof.
  remember (pre ++ a ++ post) as out eqn:E. intros H.
  revert pre post E; induction H as [s | b g gs inp out H IH];
    intros pre post E Hav.
  - subst s. exists [f]. split; [reflexivity|].
    rewrite !(app_assoc pre a). repeat constructor.
  - inversion Hav as [|? ? Hg Hgs]; subst.
    destruct (Hg b out pre post E) as [L | L].
    + rewrite (app_assoc pre a post) in E. symmetry in E.
      destruct (app_eq_split _ _ _ _ E) as (w & -> & ->);
        [rewrite length_app; lia|].
      exists (f :: g :: gs). split; [reflexivity|].
      replace (pre ++ a ++ f ++ w ++ g ++ out)
        with ((pre ++ a) ++ f ++ (w ++ g ++ out))
        by now rewrite <- !app_assoc.
      rewrite <- (app_assoc (pre ++ a) w inp).
      constructor. now constructor.
    + rewrite (app_assoc b g out) in E.
      destruct (app_eq_split _ _ _ _ E) as (w & -> & ->);
        [rewrite length_app; lia|].
      destruct (IH w post eq_refl Hgs) as (gs' & Hp & Hs).
      exists (g :: gs'). split.
      * rewrite Hp. apply perm_swap.
      * rewrite <- !app_assoc. now constructor.
Qed.

Lemma spliced_insert_perm gs inp out a f :
  spliced gs inp out -> Forall (avoids a) gs -> contains a out ->
  exists gs', Permutation gs' (f :: gs) /\
              spliced gs' inp (insert_after a f out).
Proof.
  intros Hs Hav Hc.
  destruct (insert_after_contains a f out Hc) as (pre & post & E & _ & ->).
  subst out. now apply spliced_at_match.
Qed.

(** A pattern that avoids both the anchor and the fragment of a step is in
    the text after the step exactly when it was there before. *)
Lemma step_keeps_pattern x a f doc :
  avoids x a -> avoids x f ->
  contains x (insert_after a f doc) <-> contains x doc.
Proof.
  intros Ha Hf. destruct (search a doc) as [i|] eqn:E.
  - destruct (insert_after_found a f doc i E) as (pre & post & -> & _ & ->).
    split.
    + rewrite !(app_assoc pre a). now apply avoids_no_new_match.
    + now apply avoids_keeps_match.
  - unfold insert_after. now rewrite E.
Qed.

Lemma step_no_new_pattern x a f doc :
  avoids x f -> contains x (insert_after a f doc) -> contains x doc.
Proof.
  intros Hf. destruct (search a doc) as [i|] eqn:E.
  - destruct (insert_after_found a f doc i E) as (pre & post & -> & _ & ->).
    rewrite !(app_assoc pre a). now apply avoids_no_new_match.
  - unfold insert_after. now rewrite E.
Qed.

Lemma anchor_is_pattern a : In a anchors -> In a patterns.
Proof. intros H. unfold patterns. apply in_or_app. now left. Qed.

Lemma step_whole gs inp out a f :
  In a anchors -> is_frag f -> Forall is_frag gs ->
  spliced gs inp out -> contains a out ->
  exists gs', Permutation gs' (f :: gs) /\ Forall is_frag gs' /\
              spliced gs' inp (insert_after a f out).
Proof.
  intros Ha Hf Hgs Hs Hc.
  destruct (spliced_insert_perm gs inp out a f Hs) as (gs' & Hp & Hs');
    [|assumption|].
  - eapply Forall_impl; [|exact Hgs]. intros g Hg.
    apply pattern_avoids_frag; [now apply anchor_is_pattern | exact Hg].
  - exists gs'. repeat split; try assumption.
    eapply Permutation_Forall; [symmetry; exact Hp|]. now constructor.
Qed.

Lemma concat_length_perm (gs gs' : list text) :
  Permutation gs gs' -> length (concat gs) = length (concat gs').
Proof.
  induction 1; simpl; rewrite ?length_app; try lia.
Qed.

(** A step keeps every anchor of a well-formed text, and keeps the text
    well-formed. *)
Lemma well_formed_step a f doc :
  In a anchors -> is_frag f -> well_formed doc ->
  well_formed (insert_after a f doc).
Proof.
  intros Ha Hf (Hc & H12 & H21).
  assert (Hca : contains a doc) by (rewrite Forall_forall in Hc; auto).
  split; [|split].
  - destruct (insert_after_contains a f doc Hca) as (pre & post & E & _ & ->).
    subst doc.
    inversion Hc as [|? ? C1 Hc1]; subst. inversion Hc1 as [|? ? C2 Hc2]; subst.
    inversion Hc2 as [|? ? C3 Hc3]; subst. inversion Hc3 as [|? ? C4 _]; subst.
    simpl in Ha. decompose [or] Ha; try contradiction; subst a;
      repeat (constructor;
        first [ apply contains_intro
              | apply build_marker_survives; assumption
              | apply ref_marker_survives; assumption
              | apply avoids_keeps_match;
                [apply avoids_known; vm_compute; reflexivity | assumption]
              | idtac ]).
  - intros H. apply H12. eapply step_no_new_pattern; [|exact H].
    apply pattern_avoids_frag; [|exact Hf].
    unfold patterns. apply in_or_app. right. simpl. tauto.
  - intros H. apply H21. eapply step_no_new_pattern; [|exact H].
    apply pattern_avoids_frag; [|exact Hf].
    unfold patterns. apply in_or_app. right. simpl. tauto.
Qed.

End Whole.

(** * One run on a file with its four anchors *)

Section OneRun.

Variables r1 r2 : N.
Let id1 := make_id r1.
Let id2 := make_id r2.

Lemma run_frags :
  is_frag (file_ref_frag id1) /\ is_frag (build_file_frag id2 id1) /\
  is_frag (group_frag id1) /\ is_frag (sources_frag id2).
Proof.
  pose proof (make_id_is_id r1) as I1. pose proof (make_id_is_id r2) as I2.
  repeat split;
    eapply (steps_are_frags id1 id2); try eassumption; simpl; tauto.
Qed.

Lemma four_steps_spliced content :
  contains file_ref_marker content ->
  contains build_file_marker (add_file_ref id1 content) ->
  contains group_pattern content ->
  contains sources_pattern content ->
  exists gs,
    Permutation gs [file_ref_frag id1; build_file_frag id2 id1;
                    group_frag id1; sources_frag id2] /\
    spliced gs content (patch id1 id2 content).
Proof.
  intros C1 C2 C3 C4. destruct run_frags as (F1 & F2 & F3 & F4).
  assert (K : forall x a f doc, In x anchors -> In a anchors -> is_frag f ->
            may_touch (known x) (known a) = false ->
            contains x doc -> contains x (insert_after a f doc)).
  { intros x a f doc Hx Ha Hf Ht Hc. apply step_keeps_pattern; auto.
    - now apply avoids_known.
    - apply pattern_avoids_frag; [now apply anchor_is_pattern | exact Hf]. }
  assert (A1 : In file_ref_marker anchors) by (simpl; tauto).
  assert (A2 : In build_file_marker anchors) by (simpl; tauto).
  assert (A3 : In group_pattern anchors) by (simpl; tauto).
  assert (A4 : In sources_pattern anchors) by (simpl; tauto).
  unfold patch, add_sources_item, add_group_item, add_build_file.
  unfold add_file_ref in *.
  destruct (step_whole _ _ _ _ _ A1 F1 (Forall_nil _) (spliced_nil content) C1)
    as (g1 & P1 & W1 & S1).
  destruct (step_whole _ _ _ _ _ A2 F2 W1 S1 C2) as (g2 & P2 & W2 & S2).
  assert (C3' : contains group_pattern
                  (insert_after build_file_marker (build_file_frag id2 id1)
                     (insert_after file_ref_marker (file_ref_frag id1) content))).
  { repeat (apply K; [assumption | assumption | assumption
                      | vm_compute; reflexivity |]). exact C3. }
  destruct (step_whole _ _ _ _ _ A3 F3 W2 S2 C3') as (g3 & P3 & W3 & S3).
  assert (C4' : contains sources_pattern
                  (insert_after group_pattern (group_frag id1)
                  (insert_after build_file_marker (build_file_frag id2 id1)
                     (insert_after file_ref_marker (file_ref_frag id1) content)))).
  { repeat (apply K; [assumption | assumption | assumption
                      | vm_compute; reflexivity |]). exact C4. }
  destruct (step_whole _ _ _ _ _ A4 F4 W3 S3 C4') as (g4 & P4 & W4 & S4).
  exists g4. split; [|exact S4].
  rewrite P4, P3, P2, P1. symmetry.
  apply (Permutation_rev [file_ref_frag id1; build_file_frag id2 id1;
                          group_frag id1; sources_frag id2]).
Qed.

End OneRun.

Lemma search_contains a h i : search a h = Some i -> contains a h.
Proof. intros E. exists i. now apply search_Some. Qed.

Lemma spliced_gap_contains gs inp out g :
  spliced gs inp out -> In g gs -> contains g out.
Proof.
  induction 1 as [s | b g' gs inp out _ IH]; intros Hin; [destruct Hin|].
  destruct Hin as [-> | Hin].
  - apply contains_intro.
  - rewrite app_assoc. apply contains_app_r. now apply IH.
Qed.

(** C1 (amended): when the file holds the four anchors and no build-file
    marker starts on the closing [/] of a file-reference marker, one run
    lengthens the text by exactly the four fragments, and the output is the
    input with each fragment put in whole exactly once: the file-reference
    declaration and the group item carrying the first identifier, the
    build-file declaration and the build-phase item carrying the second. *)
Theorem patch_inserts_four_fragments (r1 r2 : N) (content : text) :
  contains file_ref_marker content ->
  contains build_file_marker content ->
  contains group_pattern content ->
  contains sources_pattern content ->
  ~ contains ref_then_build content ->
  let id1 := make_id r1 in
  let id2 := make_id r2 in
  let frags := [file_ref_frag id1; build_file_frag id2 id1;
                group_frag id1; sources_frag id2] in
  length (patch id1 id2 content) = length content + length (concat frags) /\
  (exists gs, Permutation gs frags /\ spliced gs content (patch id1 id2 content))
  /\ Forall (fun f => contains f (patch id1 id2 content)) frags.
Proof.
  intros C1 C2 C3 C4 HJ id1 id2 frags.
  assert (C2' : contains build_file_marker (add_file_ref id1 content)).
  { unfold add_file_ref.
    destruct (insert_after_contains file_ref_marker (file_ref_frag id1)
                content C1) as (pre & post & E & _ & ->).
    subst content. now apply build_marker_survives. }
  destruct (four_steps_spliced r1 r2 content C1 C2' C3 C4) as (gs & Hp & Hs).
  fold id1 id2 frags in Hp, Hs. split; [|split].
  - rewrite (spliced_length _ _ _ Hs). now rewrite (concat_length_perm _ _ Hp).
  - now exists gs.
  - apply Forall_forall. intros f Hf.
    apply (spliced_gap_contains gs content); [exact Hs|].
    eapply Permutation_in; [symmetry; exact Hp | exact Hf].
Qed.

Lemma patch_inserts_four_fragments_witness :
  let frags := [file_ref_frag (make_id 1); build_file_frag (make_id 2) (make_id 1);
                group_frag (make_id 1); sources_frag (make_id 2)] in
  length (patch (make_id 1) (make_id 2) sample_project)
    = length sample_project + length (concat frags) /\
  (exists gs, Permutation gs frags /\
     spliced gs sample_project (patch (make_id 1) (make_id 2) sample_project))
  /\ Forall (fun f => contains f (patch (make_id 1) (make_id 2) sample_project))
       frags.
Proof.
  destruct sample_has_anchors as (A1 & A2 & A3 & A4).
  apply (patch_inserts_four_fragments 1 2 sample_project A1 A2 A3 A4).
  apply search_None_iff. vm_compute. reflexivity.
Defined.

(** C1, as the claim words it, fails on a file that holds the four anchors
    with the two section markers sharing a [/]: the build-file declaration
    is not inserted and the text grows by three fragments only. *)
Lemma four_anchors_three_insertions :
  (contains file_ref_marker overlapped_project /\
   contains build_file_marker overlapped_project /\
   contains group_pattern overlapped_project /\
   contains sources_pattern overlapped_project) /\
  length (patch (make_id 1) (make_id 2) overlapped_project)
    <> length overlapped_project
       + (length (file_ref_frag (make_id 1))
          + length (build_file_frag (make_id 2) (make_id 1))
          + length (group_frag (make_id 1))
          + length (sources_frag (make_id 2))) /\
  ~ contains (build_file_frag (make_id 2) (make_id 1))
      (patch (make_id 1) (make_id 2) overlapped_project).
Proof.
  split; [|split].
  - repeat split;
      match goal with
      | |- contains ?a ?h =>
          destruct (search a h) as [i|] eqn:E;
            [exact (search_contains _ _ _ E) | vm_compute in E; discriminate]
      end.
  - vm_compute. discriminate.
  - apply search_None_iff. vm_compute. reflexivity.
Qed.

(** * Running the script again on its own output *)

Section Rerun.

Lemma steps_whole ss : forall gs inp out,
  Forall (fun s => In (fst s) anchors /\ is_frag (snd s)) ss ->
  well_formed out -> Forall is_frag gs -> spliced gs inp out ->
  exists gs',
    Permutation gs' (map snd ss ++ gs) /\ Forall is_frag gs' /\
    spliced gs' inp (fold_left step ss out) /\
    well_formed (fold_left step ss out).
Proof.
  induction ss as [|[a f] ss IH]; intros gs inp out Hss Hwf Hgs Hs.
  - exists gs. simpl. split; [reflexivity|]. split; [assumption|]. split; assumption.
  - inversion Hss as [|? ? [Ha Hf] Hss']; subst. simpl in Ha, Hf.
    assert (Hc : contains a out).
    { destruct Hwf as [Hc _]. rewrite Forall_forall in Hc. auto. }
    destruct (step_whole gs inp out a f Ha Hf Hgs Hs Hc) as (g1 & P1 & W1 & S1).
    pose proof (well_formed_step a f out Ha Hf Hwf) as Hwf1.
    destruct (IH g1 inp _ Hss' Hwf1 W1 S1) as (gs' & P & W & S & Hwf').
    exists gs'. split; [|split; [assumption | split; assumption]].
    rewrite P, P1. simpl. symmetry. apply Permutation_middle.
Qed.

Lemma steps_ok r1 r2 :
  Forall (fun s => In (fst s) anchors /\ is_frag (snd s))
    (steps (make_id r1) (make_id r2)).
Proof.
  apply Forall_forall. intros [a f] Hin.
  exact (steps_are_frags _ _ a f (make_id_is_id r1) (make_id_is_id r2) Hin).
Qed.

End Rerun.

(** C4: the patch is not idempotent.  On a well-formed file (the four
    anchors present, the two section markers not sharing a character) a
    second run, with identifiers of its own, inserts all four fragments
    again: the result is the input with eight fragments put in whole, two
    file-reference declarations, two build-file declarations and two
    items in each list, and it is twice four fragments longer. *)
Theorem patch_twice_duplicates (r1 r2 r1' r2' : N) (content : text) :
  well_formed content ->
  let out2 := patch (make_id r1') (make_id r2')
                (patch (make_id r1) (make_id r2) content) in
  let frags := map snd (steps (make_id r1) (make_id r2))
               ++ map snd (steps (make_id r1') (make_id r2')) in
  (exists gs, Permutation gs frags /\ spliced gs content out2) /\
  Forall (fun f => contains f out2) frags /\
  length out2 = length content + length (concat frags) /\
  out2 <> patch (make_id r1) (make_id r2) content.
Proof.
  intros Hwf out2 frags.
  assert (E : out2 = fold_left step
                (steps (make_id r1) (make_id r2)
                 ++ steps (make_id r1') (make_id r2')) content) by reflexivity.
  destruct (steps_whole (steps (make_id r1) (make_id r2)
                         ++ steps (make_id r1') (make_id r2')) [] content content)
    as (gs & P & W & S & _).
  { apply Forall_app. split; apply steps_ok. }
  { exact Hwf. }
  { constructor. }
  { constructor. }
  rewrite <- E, map_app, app_nil_r in *. fold frags in P.
  assert (L : length out2 = length content + length (concat frags)).
  { rewrite (spliced_length _ _ _ S). now rewrite (concat_length_perm _ _ P). }
  split; [now exists gs|]. split; [|split; [exact L|]].
  - apply Forall_forall. intros f Hf.
    apply (spliced_gap_contains gs content); [exact S|].
    eapply Permutation_in; [symmetry; exact P | exact Hf].
  - intros Heq.
    destruct (steps_whole (steps (make_id r1) (make_id r2)) [] content content)
      as (gs1 & P1 & _ & S1 & _);
      [apply steps_ok | exact Hwf | constructor | constructor |].
    change (fold_left step (steps (make_id r1) (make_id r2)) content)
      with (patch (make_id r1) (make_id r2) content) in S1.
    pose proof (spliced_length _ _ _ S1) as L1.
    rewrite (concat_length_perm _ _ P1), app_nil_r in L1.
    rewrite Heq in L. rewrite L1 in L. unfold frags in L.
    rewrite concat_app, length_app in L.
    assert (0 < length (concat (map snd (steps (make_id r1') (make_id r2'))))).
    { simpl. lia. }
    lia.
Qed.

Lemma sample_well_formed : well_formed sample_project.
Proof.
  destruct sample_has_anchors as (A1 & A2 & A3 & A4).
  split; [repeat constructor; assumption|].
  split; apply search_None_iff; vm_compute; reflexivity.
Qed.

Lemma patch_twice_duplicates_witness :
  let out2 := patch (make_id 3) (make_id 4)
                (patch (make_id 1) (make_id 2) sample_project) in
  let frags := map snd (steps (make_id 1) (make_id 2))
               ++ map snd (steps (make_id 3) (make_id 4)) in
  (exists gs, Permutation gs frags /\ spliced gs sample_project out2) /\
  Forall (fun f => contains f out2) frags /\
  length out2 = length sample_project + length (concat frags) /\
  out2 <> patch (make_id 1) (make_id 2) sample_project.
Proof.
  exact (patch_twice_duplicates 1 2 3 4 sample_project sample_well_formed).
Defined.

(** * A file without the file-reference marker *)

Section MissingMarker.

Lemma step_cond gs inp out a f :
  In a anchors -> is_frag f -> Forall is_frag gs -> spliced gs inp out ->
  exists gs',
    Permutation gs' (match search a out with Some _ => [f] | None => [] end
                     ++ gs) /\
    Forall is_frag gs' /\ spliced gs' inp (insert_after a f out).
Proof.
  intros Ha Hf Hgs Hs. destruct (search a out) as [i|] eqn:E.
  - apply step_whole; try assumption. now apply search_contains in E.
  - exists gs. unfold insert_after. rewrite E. simpl.
    split; [reflexivity|]. now split.
Qed.

Lemma search_same {A} a d1 d2 (l l' : A) :
  (contains a d1 <-> contains a d2) ->
  match search a d1 with Some _ => l | None => l' end
  = match search a d2 with Some _ => l | None => l' end.
Proof.
  intros H. destruct (search a d1) as [i|] eqn:E1,
    (search a d2) as [j|] eqn:E2; try reflexivity; exfalso.
  - apply search_contains in E1. apply search_None in E2. tauto.
  - apply search_contains in E2. apply search_None in E1. tauto.
Qed.

(** The reference declaration cannot arise from putting in one of the
    other three fragments. *)
Lemma file_ref_avoids_others id1 f :
  is_id id1 ->
  (exists sf, In sf [sbuild_file_frag; sgroup_frag; ssources_frag] /\
              instance sf f) ->
  avoids (file_ref id1) f.
Proof.
  intros H1 (sf & Hsf & Hf).
  assert (I : instance (tl sfile_ref_frag) (file_ref id1)).
  { apply (instance_app (known [tab; tab]) _ [tab; tab]);
      [apply instance_known|].
    apply instance_app; [now apply instance_any_id | apply instance_known]. }
  apply (avoids_sound _ _ _ _ I Hf).
  simpl in Hsf. decompose [or] Hsf; try contradiction; subst sf;
    vm_compute; reflexivity.
Qed.

Variables r1 r2 : N.
Let id1 := make_id r1.
Let id2 := make_id r2.

Lemma no_marker_spliced content :
  ~ contains file_ref_marker content ->
  exists gs, Permutation gs (due id1 id2 content) /\
             spliced gs content (patch id1 id2 content).
Proof.
  intros H0.
  destruct (run_frags r1 r2) as (F1 & F2 & F3 & F4).
  assert (A2 : In build_file_marker anchors) by (simpl; tauto).
  assert (A3 : In group_pattern anchors) by (simpl; tauto).
  assert (A4 : In sources_pattern anchors) by (simpl; tauto).
  assert (K : forall x a f doc, In x anchors -> is_frag f ->
            may_touch (known x) (known a) = false ->
            contains x (insert_after a f doc) <-> contains x doc).
  { intros x a f doc Hx Hf Ht. apply step_keeps_pattern.
    - now apply avoids_known.
    - apply pattern_avoids_frag; [now apply anchor_is_pattern | exact Hf]. }
  unfold patch, add_sources_item, add_group_item, add_build_file, add_file_ref.
  rewrite (insert_after_missing file_ref_marker _ content H0).
  destruct (step_cond _ _ _ _ _ A2 F2 (Forall_nil _) (spliced_nil content))
    as (g2 & P2 & W2 & S2).
  destruct (step_cond _ _ _ _ _ A3 F3 W2 S2) as (g3 & P3 & W3 & S3).
  destruct (step_cond _ _ _ _ _ A4 F4 W3 S3) as (g4 & P4 & W4 & S4).
  exists g4. split; [|exact S4].
  rewrite P4, P3, P2, app_nil_r. unfold due. simpl. rewrite app_nil_r.
  rewrite (search_same group_pattern _ content).
  2:{ apply K; [assumption | assumption | vm_compute; reflexivity]. }
  rewrite (search_same sources_pattern _ content).
  2:{ rewrite K by (assumption || (vm_compute; reflexivity)).
      apply K; [assumption | assumption | vm_compute; reflexivity]. }
  rewrite Permutation_app_comm. unfold id1, id2.
  match goal with
  | |- Permutation ((?a ++ ?b) ++ ?c) (?b ++ ?a ++ ?c) =>
      rewrite (app_assoc b a c); apply Permutation_app_tail,
        Permutation_app_comm
  end.
Qed.

Lemma no_marker_no_declaration content :
  ~ contains (file_ref id1) content ->
  ~ contains (file_ref id1)
      (add_sources_item id2 (add_group_item id1
         (add_build_file id2 id1 content))).
Proof.
  intros H0 H. apply H0.
  destruct (frag_instances id1 id2 (make_id_is_id r1) (make_id_is_id r2))
    as (_ & I2 & I3 & I4).
  unfold add_sources_item, add_group_item, add_build_file in H.
  apply step_no_new_pattern in H.
  2:{ apply file_ref_avoids_others; [apply make_id_is_id|].
      exists ssources_frag. split; [simpl; tauto | exact I4]. }
  apply step_no_new_pattern in H.
  2:{ apply file_ref_avoids_others; [apply make_id_is_id|].
      exists sgroup_frag. split; [simpl; tauto | exact I3]. }
  apply step_no_new_pattern in H.
  2:{ apply file_ref_avoids_others; [apply make_id_is_id|].
      exists sbuild_file_frag. split; [simpl; tauto | exact I2]. }
  exact H.
Qed.

End MissingMarker.

(** C2 (amended): on a file without the file-reference section marker the
    first step inserts nothing, and the output holds the reference
    declaration only if the input already held it; the output is the input
    with exactly the fragments of the other three steps whose anchors are in
    the input, each of them put in whole. *)
Theorem no_ref_marker_skips_declaration (r1 r2 : N) (content : text) :
  ~ contains file_ref_marker content ->
  let id1 := make_id r1 in
  let id2 := make_id r2 in
  let out := patch id1 id2 content in
  add_file_ref id1 content = content /\
  (~ contains (file_ref id1) content -> ~ contains (file_ref id1) out) /\
  (exists gs, Permutation gs (due id1 id2 content) /\ spliced gs content out) /\
  (contains build_file_marker content ->
   contains (build_file_frag id2 id1) out) /\
  (contains group_pattern content -> contains (group_frag id1) out) /\
  (contains sources_pattern content -> contains (sources_frag id2) out).
Proof.
  intros H0 id1 id2 out.
  assert (E : add_file_ref id1 content = content)
    by now apply insert_after_missing.
  destruct (no_marker_spliced r1 r2 content H0) as (gs & P & S).
  fold id1 id2 out in P, S.
  assert (G : forall a f, In (a, f) (tl (steps id1 id2)) ->
                contains a content -> contains f out).
  { intros a f Hin Hc. apply (spliced_gap_contains gs content); [exact S|].
    eapply Permutation_in; [symmetry; exact P|].
    unfold due. apply in_flat_map. exists (a, f). split; [exact Hin|].
    simpl. destruct (search_complete _ _ Hc) as [i ->]. now left. }
  split; [exact E|]. split; [|split; [now exists gs|]].
  - intros Hn. unfold out, patch. rewrite E.
    now apply no_marker_no_declaration.
  - repeat split; apply G; simpl; tauto.
Qed.

Lemma no_ref_marker_skips_declaration_witness :
  let id1 := make_id 1 in
  let id2 := make_id 2 in
  let out := patch id1 id2 no_ref_section in
  add_file_ref id1 no_ref_section = no_ref_section /\
  ~ contains (file_ref id1) out /\
  (exists gs, Permutation gs (due id1 id2 no_ref_section) /\
              spliced gs no_ref_section out) /\
  contains (build_file_frag id2 id1) out /\
  contains (group_frag id1) out /\
  contains (sources_frag id2) out.
Proof.
  assert (H0 : ~ contains file_ref_marker no_ref_section)
    by (apply search_None_iff; vm_compute; reflexivity).
  assert (H1 : ~ contains (file_ref (make_id 1)) no_ref_section)
    by (apply search_None_iff; vm_compute; reflexivity).
  assert (C2 : contains build_file_marker no_ref_section)
    by (apply (search_contains _ _ 0); vm_compute; reflexivity).
  assert (C3 : contains group_pattern no_ref_section)
    by (apply (search_contains _ _ 45); vm_compute; reflexivity).
  assert (C4 : contains sources_pattern no_ref_section)
    by (apply (search_contains _ _ 88); vm_compute; reflexivity).
  destruct (no_ref_marker_skips_declaration 1 2 no_ref_section H0)
    as (E & N & S & B & G & T).
  repeat split; auto.
Defined.

(** C2, as the claim words it, fails on a file that has no file-reference
    section marker but already holds the very declaration: the output
    holds it too. *)
Lemma declaration_present_without_marker :
  ~ contains file_ref_marker declared_already /\
  contains (file_ref (make_id 0))
    (patch (make_id 0) (make_id 1) declared_already).
Proof.
  split.
  - apply search_None_iff. vm_compute. reflexivity.
  - apply (search_contains _ _ 0). vm_compute. reflexivity.
Qed.

(** * Further properties of a run *)

Section RunFacts.

Variables r1 r2 : N.
Let id1 := make_id r1.
Let id2 := make_id r2.

Lemma insert_after_length a f c :
  length c <= length (insert_after a f c) <= length c + length f.
Proof.
  unfold insert_after. destruct (search a c); [|lia].
  rewrite splice_length. lia.
Qed.

Lemma frag_lengths :
  length (file_ref_frag id1) = 171 /\
  length (build_file_frag id2 id1) = 150 /\
  length (group_frag id1) = 55 /\ length (sources_frag id2) = 66.
Proof.
  destruct (make_id_is_id r1) as [L1 _], (make_id_is_id r2) as [L2 _].
  unfold file_ref_frag, build_file_frag, file_ref, build_file, group_frag,
    sources_frag, id1, id2. cbn [length]. rewrite !length_app.
  rewrite L1, L2. repeat split; reflexivity.
Qed.

Lemma patch_keeps_well_formed content :
  well_formed content -> well_formed (patch id1 id2 content).
Proof.
  intros H. destruct (run_frags r1 r2) as (F1 & F2 & F3 & F4).
  unfold patch, add_sources_item, add_group_item, add_build_file, add_file_ref.
  repeat (apply well_formed_step; [simpl; tauto | assumption |]). exact H.
Qed.

Lemma patch_no_new_pattern x content :
  In x patterns -> contains x (patch id1 id2 content) -> contains x content.
Proof.
  intros Hx H. destruct (run_frags r1 r2) as (F1 & F2 & F3 & F4).
  unfold patch, add_sources_item, add_group_item, add_build_file,
    add_file_ref in H.
  repeat (apply step_no_new_pattern in H;
          [|apply pattern_avoids_frag; assumption]).
  exact H.
Qed.

Lemma insert_after_same_or_longer a f c :
  insert_after a f c = c \/
  length (insert_after a f c) = length c + length f.
Proof.
  unfold insert_after. destruct (search a c); [right | now left].
  apply splice_length.
Qed.

Lemma patch_well_formed_length content :
  well_formed content ->
  length (patch id1 id2 content) = length content + 442.
Proof.
  intros H.
  destruct (steps_whole (steps id1 id2) [] content content)
    as (gs & P & _ & S & _);
    [apply steps_ok | exact H | constructor | constructor |].
  change (fold_left step (steps id1 id2) content)
    with (patch id1 id2 content) in S.
  rewrite (spliced_length _ _ _ S), (concat_length_perm _ _ P), app_nil_r.
  destruct frag_lengths as (L1 & L2 & L3 & L4).
  unfold steps. cbn [map snd concat]. rewrite !length_app, L1, L2, L3, L4.
  simpl. lia.
Qed.

End RunFacts.

(** X1: on a file that holds none of the four anchors the run writes the
    text back unchanged, and still prints the success message and the two
    identifier lines. *)
Theorem no_anchor_rewrites_unchanged (r1 r2 : N) (content : text) :
  (forall a, In a anchors -> ~ contains a content) ->
  main {| readable := Some content; writable := true |} r1 r2
  = Done content [success_line; file_ref_line (make_id r1);
                  build_file_line (make_id r2)].
Proof.
  intros H. unfold main. simpl. f_equal.
  unfold patch, add_sources_item, add_group_item, add_build_file, add_file_ref.
  rewrite (insert_after_missing file_ref_marker) by (apply H; simpl; tauto).
  rewrite (insert_after_missing build_file_marker) by (apply H; simpl; tauto).
  rewrite (insert_after_missing group_pattern) by (apply H; simpl; tauto).
  now rewrite (insert_after_missing sources_pattern) by (apply H; simpl; tauto).
Qed.

Lemma no_anchor_rewrites_unchanged_witness :
  main {| readable := Some unrelated_file; writable := true |} 1 2
  = Done unrelated_file [success_line; file_ref_line (make_id 1);
                         build_file_line (make_id 2)].
Proof.
  apply (no_anchor_rewrites_unchanged 1 2 unrelated_file).
  intros a Ha. apply search_None_iff.
  simpl in Ha. decompose [or] Ha; try contradiction; subst a;
    vm_compute; reflexivity.
Defined.

(** X2: a run never shortens the text and adds at most 442 characters
    (the four fragments are 171, 150, 55 and 66 characters long); when the
    length is unchanged, so is the text. *)
Theorem patch_length_bounds (r1 r2 : N) (content : text) :
  let out := patch (make_id r1) (make_id r2) content in
  length content <= length out <= length content + 442 /\
  (length out = length content -> out = content).
Proof.
  intros out. destruct (frag_lengths r1 r2) as (L1 & L2 & L3 & L4).
  unfold out, patch, add_sources_item, add_group_item, add_build_file,
    add_file_ref.
  set (c1 := insert_after file_ref_marker _ content).
  set (c2 := insert_after build_file_marker _ c1).
  set (c3 := insert_after group_pattern _ c2).
  pose proof (insert_after_length file_ref_marker
                (file_ref_frag (make_id r1)) content) as B1.
  pose proof (insert_after_length build_file_marker
                (build_file_frag (make_id r2) (make_id r1)) c1) as B2.
  pose proof (insert_after_length group_pattern
                (group_frag (make_id r1)) c2) as B3.
  pose proof (insert_after_length sources_pattern
                (sources_frag (make_id r2)) c3) as B4.
  fold c1 in B1. fold c2 in B2. fold c3 in B3.
  split; [lia|]. intros E.
  destruct (insert_after_same_or_longer sources_pattern
              (sources_frag (make_id r2)) c3) as [-> | H4]; [|lia].
  destruct (insert_after_same_or_longer group_pattern
              (group_frag (make_id r1)) c2) as [H3 | H3];
    fold c3 in H3; [rewrite H3 | lia].
  destruct (insert_after_same_or_longer build_file_marker
              (build_file_frag (make_id r2) (make_id r1)) c1) as [H2 | H2];
    fold c2 in H2; [rewrite H2 | lia].
  destruct (insert_after_same_or_longer file_ref_marker
              (file_ref_frag (make_id r1)) content) as [H1 | H1];
    fold c1 in H1; [exact H1 | lia].
Qed.

Lemma patch_length_bounds_witness :
  length (patch (make_id 1) (make_id 2) unrelated_file)
  = length unrelated_file /\
  patch (make_id 1) (make_id 2) unrelated_file = unrelated_file.
Proof.
  assert (E : length (patch (make_id 1) (make_id 2) unrelated_file)
              = length unrelated_file) by (vm_compute; reflexivity).
  split; [exact E|].
  exact (proj2 (patch_length_bounds 1 2 unrelated_file) E).
Defined.

(** X3: no run creates a match of an anchor: an anchor that is missing
    from the file is still missing after any number of runs, so running
    the script again never completes a partial patch. *)
Theorem rerun_never_creates_anchor (draws : list (N * N)) (a content : text) :
  In a anchors -> ~ contains a content ->
  ~ contains a (rerun draws content).
Proof.
  intros Ha. revert content. induction draws as [|[r1 r2] draws IH];
    intros content H; [exact H|].
  unfold rerun. simpl. apply IH. intros Hc. apply H.
  eapply patch_no_new_pattern; [|exact Hc]. now apply anchor_is_pattern.
Qed.

Lemma rerun_never_creates_anchor_witness :
  ~ contains file_ref_marker (rerun [(1, 2); (3, 4)]%N no_ref_section).
Proof.
  apply (rerun_never_creates_anchor [(1, 2); (3, 4)]%N file_ref_marker).
  - simpl. tauto.
  - apply search_None_iff. vm_compute. reflexivity.
Defined.

(** X4: a run keeps a well-formed file well-formed, so every further run
    finds the four anchors again: after [n] runs, with any draws, the file
    is exactly [n * 442] characters longer. *)
Theorem rerun_grows_linearly (draws : list (N * N)) (content : text) :
  well_formed content ->
  well_formed (rerun draws content) /\
  length (rerun draws content) = length content + 442 * length draws.
Proof.
  revert content. induction draws as [|[r1 r2] draws IH]; intros content H.
  - split; [exact H | simpl; lia].
  - unfold rerun. simpl fold_left.
    destruct (IH (patch (make_id r1) (make_id r2) content)) as [W L].
    { now apply patch_keeps_well_formed. }
    split; [exact W|]. unfold rerun in L. rewrite L.
    rewrite patch_well_formed_length by exact H. simpl length. lia.
Qed.

Lemma rerun_grows_linearly_witness :
  well_formed (rerun [(1, 2); (3, 4); (5, 6)]%N sample_project) /\
  length (rerun [(1, 2); (3, 4); (5, 6)]%N sample_project)
  = length sample_project + 442 * 3.
Proof.
  exact (rerun_grows_linearly [(1, 2); (3, 4); (5, 6)]%N sample_project
           sample_well_formed).
Defined.

(** * The order of the four steps *)

Section Order.

Lemma search_leftmost x d i :
  occ_at x d i -> (forall j, occ_at x d j -> i <= j) -> search x d = Some i.
Proof.
  intros Ho Hm. destruct (search_complete x d (ex_intro _ i Ho)) as [k E].
  destruct (search_Some _ _ _ E) as [Hk Hkm].
  pose proof (Hm _ Hk). pose proof (Hkm _ Ho). rewrite E. f_equal. lia.
Qed.

(** The step at a known leftmost match. *)
Lemma insert_after_at a f pre post :
  (forall j, occ_at a (pre ++ a ++ post) j -> length pre <= j) ->
  insert_after a f (pre ++ a ++ post) = pre ++ a ++ f ++ post.
Proof.
  intros Hm. unfold insert_after.
  rewrite (search_leftmost a _ (length pre)); [|now exists pre, post|exact Hm].
  rewrite <- length_app, app_assoc, splice_app. now rewrite <- app_assoc.
Qed.

Lemma occ_at_intro x pre post : occ_at x (pre ++ x ++ post) (length pre).
Proof. now exists pre, post. Qed.

(** Two steps whose leftmost matches lie one after the other give the
    same text in either order. *)
Lemma commute_ordered a f b g pb m qa :
  0 < length a ->
  avoids a g ->
  (forall j, occ_at b (pb ++ b ++ m ++ a ++ qa) j -> length pb <= j) ->
  (forall j, occ_at a (pb ++ b ++ m ++ a ++ qa) j ->
             length (pb ++ b ++ m) <= j) ->
  insert_after a f (insert_after b g (pb ++ b ++ m ++ a ++ qa))
    = pb ++ b ++ g ++ m ++ a ++ f ++ qa /\
  insert_after b g (insert_after a f (pb ++ b ++ m ++ a ++ qa))
    = pb ++ b ++ g ++ m ++ a ++ f ++ qa.
Proof.
  intros Hpos Hav Hb Ha. split.
  - rewrite (insert_after_at b g pb) by exact Hb.
    replace (pb ++ b ++ g ++ m ++ a ++ qa)
      with ((pb ++ b ++ g ++ m) ++ a ++ qa) by now rewrite <- !app_assoc.
    rewrite insert_after_at; [now rewrite <- !app_assoc|].
    intros j (px & qx & E & <-).
    replace ((pb ++ b ++ g ++ m) ++ a ++ qa)
      with ((pb ++ b) ++ g ++ (m ++ a ++ qa)) in E
      by now rewrite <- !app_assoc.
    destruct (Hav _ _ _ _ E) as [L | L].
    + exfalso. rewrite (app_assoc px a qx) in E. symmetry in E.
      destruct (app_eq_split _ _ _ _ E) as (w & Ew & _);
        [rewrite length_app; lia|].
      assert (Ho : occ_at a (pb ++ b ++ m ++ a ++ qa) (length px)).
      { exists px, (w ++ m ++ a ++ qa). split; [|reflexivity].
        rewrite (app_assoc pb b), Ew, <- !app_assoc. reflexivity. }
      apply Ha in Ho. rewrite !length_app in *. lia.
    + rewrite (app_assoc (pb ++ b) g) in E.
      destruct (app_eq_split _ _ _ _ E) as (w & -> & Ew);
        [rewrite !length_app in *; lia|].
      assert (Ho : occ_at a (pb ++ b ++ m ++ a ++ qa) (length (pb ++ b ++ w))).
      { exists (pb ++ b ++ w), qx. split; [|reflexivity].
        rewrite Ew, <- !app_assoc. reflexivity. }
      apply Ha in Ho. rewrite !length_app in *. lia.
  - replace (pb ++ b ++ m ++ a ++ qa)
      with ((pb ++ b ++ m) ++ a ++ qa) at 1 by now rewrite <- !app_assoc.
    rewrite insert_after_at.
    2:{ rewrite <- !app_assoc. exact Ha. }
    rewrite <- !app_assoc. apply insert_after_at.
    intros j (px & qx & E & <-).
    destruct (Nat.le_gt_cases (length pb) (length px)) as [L | L];
      [exact L | exfalso].
    rewrite (app_assoc pb b), (app_assoc px b) in E. symmetry in E.
    destruct (app_eq_split _ _ _ _ E) as (w & Ew & _);
      [rewrite !length_app; lia|].
    assert (Ho : occ_at b (pb ++ b ++ m ++ a ++ qa) (length px)).
    { exists px, (w ++ m ++ a ++ qa). split; [|reflexivity].
      rewrite (app_assoc pb b), Ew, <- !app_assoc. reflexivity. }
    apply Hb in Ho. lia.
Qed.

Lemma apart_sym doc x a : apart doc x a -> apart doc a x.
Proof.
  intros H pre post px qx E1 E2. destruct (H px qx pre post E2 E1); lia.
Qed.

Lemma avoids_apart doc x a : avoids x a -> apart doc x a.
Proof.
  intros H pre post px qx E1 E2. apply (H pre post px qx). congruence.
Qed.

(** What a match that runs into a region looks like from there on. *)
Lemma cross_eq (n f l1 l2 pre post : text) :
  l1 ++ f ++ l2 = pre ++ n ++ post ->
  length pre < length l1 < length pre + length n ->
  f ++ l2 = skipn (length l1 - length pre) n ++ post.
Proof.
  intros E [H1 H2]. apply (f_equal (skipn (length l1))) in E.
  rewrite (skipn_app_le (length l1)), skipn_all in E by lia.
  now rewrite skipn_app_ge, skipn_app_le in E by lia.
Qed.

(** In a text where the two section markers never share their [/], their
    matches share no character at all. *)
Lemma markers_apart doc :
  ~ contains ref_then_build doc -> ~ contains build_then_ref doc ->
  apart doc build_file_marker file_ref_marker.
Proof.
  intros H12 H21 pre post px qx E1 E2.
  destruct (Nat.le_gt_cases (length px + length build_file_marker)
              (length pre)); [now left|].
  destruct (Nat.le_gt_cases (length pre + length file_ref_marker)
              (length px)); [now right|].
  exfalso. rewrite E1 in E2.
  destruct (Nat.le_gt_cases (length pre) (length px)) as [L | L].
  - apply H12.
    pose proof (starts_inside _ _ _ _ _ _ _ _ (instance_known _)
                  (instance_known _) E2 ltac:(lia)) as Hin.
    pose proof (inside_eq _ _ _ _ _ _ E2 ltac:(lia)) as Eq.
    assert (T : inner_offsets (known build_file_marker) (known file_ref_marker)
                = [35]) by (vm_compute; reflexivity).
    rewrite T in Hin. destruct Hin as [Hk | []]. rewrite <- Hk in Eq.
    injection Eq as Eq. rewrite E1, Eq.
    exact (contains_intro ref_then_build pre qx).
  - apply H21.
    pose proof (crosses_into _ _ _ _ _ _ _ _ (instance_known _)
                  (instance_known _) E2 ltac:(lia)) as Hin.
    pose proof (cross_eq _ _ _ _ _ _ E2 ltac:(lia)) as Eq.
    assert (T : cross_offsets (known build_file_marker) (known file_ref_marker)
                = [31]) by (vm_compute; reflexivity).
    rewrite T in Hin. destruct Hin as [Hk | []]. rewrite <- Hk in Eq.
    injection Eq as Eq. rewrite E1, E2, <- Eq.
    exact (contains_intro build_then_ref px post).
Qed.

Lemma anchors_apart doc x a :
  well_formed doc -> In x anchors -> In a anchors -> x <> a -> apart doc x a.
Proof.
  intros (_ & H12 & H21) Hx Ha Hne.
  simpl in Hx, Ha. decompose [or] Hx; decompose [or] Ha;
    try contradiction; subst x a; try congruence;
    first [ apply avoids_apart, avoids_known; vm_compute; reflexivity
          | now apply markers_apart
          | now apply apart_sym, markers_apart ].
Qed.

(** Two steps whose anchors are both in the text, matched apart from each
    other, give the same text in either order. *)
Lemma insert_after_commute a f b g c :
  0 < length a -> 0 < length b ->
  contains a c -> contains b c -> apart c b a ->
  avoids a g -> avoids b f ->
  insert_after b g (insert_after a f c) = insert_after a f (insert_after b g c).
Proof.
  intros Pa Pb Ca Cb Hap Hag Hbf.
  destruct (insert_after_contains a f c Ca) as (pa & qa & Ea & Ma & _).
  destruct (insert_after_contains b g c Cb) as (pb & qb & Eb & Mb & _).
  destruct (Hap pa qa pb qb Ea Eb) as [L | L].
  - assert (E : pa ++ a ++ qa = pb ++ b ++ qb) by congruence.
    rewrite (app_assoc pb b qb) in E. symmetry in E.
    destruct (app_eq_split _ _ _ _ E) as (m & Em & Eq);
      [rewrite length_app; lia|].
    assert (Ec : c = pb ++ b ++ m ++ a ++ qa).
    { rewrite Ea, Em, <- !app_assoc. reflexivity. }
    rewrite Ec in Ma, Mb |- *.
    destruct (commute_ordered a f b g pb m qa Pa Hag Mb) as [H1 H2].
    { intros j Hj. apply Ma in Hj. rewrite Em in Hj.
      now rewrite <- !app_assoc in Hj. }
    now rewrite H1, H2.
  - assert (E : pb ++ b ++ qb = pa ++ a ++ qa) by congruence.
    rewrite (app_assoc pa a qa) in E. symmetry in E.
    destruct (app_eq_split _ _ _ _ E) as (m & Em & Eq);
      [rewrite length_app; lia|].
    assert (Ec : c = pa ++ a ++ m ++ b ++ qb).
    { rewrite Eb, Em, <- !app_assoc. reflexivity. }
    rewrite Ec in Ma, Mb |- *.
    destruct (commute_ordered b g a f pa m qb Pb Hbf Ma) as [H1 H2].
    { intros j Hj. apply Mb in Hj. rewrite Em in Hj.
      now rewrite <- !app_assoc in Hj. }
    now rewrite H1, H2.
Qed.

Variables r1 r2 : N.
Let id1 := make_id r1.
Let id2 := make_id r2.

Lemma two_steps_commute x y c :
  In x (steps id1 id2) -> In y (steps id1 id2) -> well_formed c ->
  step (step c x) y = step (step c y) x.
Proof.
  intros Hx Hy Hwf. destruct x as [a f], y as [b g].
  destruct (steps_are_frags _ _ a f (make_id_is_id r1) (make_id_is_id r2) Hx)
    as [Aa Ff].
  destruct (steps_are_frags _ _ b g (make_id_is_id r1) (make_id_is_id r2) Hy)
    as [Ab Fg].
  assert (D : (a, f) = (b, g) \/ a <> b).
  { simpl in Hx, Hy. decompose [or] Hx; decompose [or] Hy; try contradiction;
      repeat match goal with
             | H : (_, _) = (_, _) |- _ => injection H as <- <-
             end;
      first [ left; reflexivity | right; intros E; vm_compute in E; discriminate ]. }
  destruct D as [E | Hne]; [now rewrite E|].
  unfold step. simpl.
  assert (Pos : forall z, In z anchors -> 0 < length z).
  { intros z Hz. simpl in Hz. decompose [or] Hz; try contradiction; subst z;
      vm_compute; lia. }
  destruct Hwf as (Hc & HJ). rewrite Forall_forall in Hc.
  apply insert_after_commute; auto.
  - apply anchors_apart; auto; try congruence.
    split; [apply Forall_forall|]; assumption.
  - apply pattern_avoids_frag; [now apply anchor_is_pattern | exact Fg].
  - apply pattern_avoids_frag; [now apply anchor_is_pattern | exact Ff].
Qed.

Lemma steps_perm l l' :
  Permutation l l' ->
  Forall (fun s => In s (steps id1 id2)) l ->
  forall c, well_formed c -> fold_left step l c = fold_left step l' c.
Proof.
  induction 1 as [| x l l' _ IH | x y l | l l' l'' P1 IH1 P2 IH2];
    intros Hl c Hwf.
  - reflexivity.
  - inversion Hl as [|? ? Hx Hl']; subst. simpl. apply IH; [exact Hl'|].
    destruct x as [a f].
    destruct (steps_are_frags _ _ a f (make_id_is_id r1) (make_id_is_id r2) Hx).
    now apply well_formed_step.
  - inversion Hl as [|? ? Hy Hl']; subst.
    inversion Hl' as [|? ? Hx _]; subst. simpl.
    now rewrite (two_steps_commute x y c).
  - rewrite IH1 by assumption. apply IH2; [|assumption].
    eapply Permutation_Forall; eassumption.
Qed.

(** On a well-formed file, once the other three steps are done in some
    order, the remaining step still finds its anchor. *)
Lemma step_last a f content :
  In (a, f) (steps id1 id2) -> well_formed content ->
  exists pre post, patch id1 id2 content = pre ++ a ++ f ++ post.
Proof.
  intros Hin Hwf. destruct (in_split _ _ Hin) as (l1 & l2 & E).
  assert (Hall : Forall (fun s => In s (steps id1 id2)) (steps id1 id2))
    by (apply Forall_forall; auto).
  assert (P : Permutation (steps id1 id2) ((l1 ++ l2) ++ [(a, f)])).
  { rewrite E at 1. rewrite <- app_assoc. apply Permutation_app_head.
    change ((a, f) :: l2) with ([(a, f)] ++ l2). apply Permutation_app_comm. }
  rewrite patch_steps, (steps_perm _ _ P Hall content Hwf), fold_left_app.
  simpl. unfold step at 1. simpl.
  set (doc := fold_left step (l1 ++ l2) content).
  assert (Hc : contains a doc).
  { destruct (steps_whole (l1 ++ l2) [] content content)
      as (_ & _ & _ & _ & (Hc & _)); try exact Hwf; try constructor.
    - apply Forall_forall. intros [b g] Hb.
      apply (steps_are_frags id1 id2); try apply make_id_is_id.
      rewrite E. apply in_app_or in Hb. apply in_or_app. simpl. tauto.
    - rewrite Forall_forall in Hc. apply Hc.
      now apply (steps_are_frags id1 id2 a f); try apply make_id_is_id. }
  destruct (insert_after_contains a f doc Hc) as (pre & post & _ & _ & ->).
  now exists pre, post.
Qed.

End Order.

(** X5: on a well-formed file the order of the four insertions does not
    matter: doing the four steps in any order writes the same text as the
    script's own order. *)
Theorem steps_order_irrelevant (r1 r2 : N) (ss : list (text * text))
    (content : text) :
  well_formed content ->
  Permutation ss (steps (make_id r1) (make_id r2)) ->
  fold_left step ss content = patch (make_id r1) (make_id r2) content.
Proof.
  intros Hwf P. rewrite patch_steps.
  apply (steps_perm r1 r2 _ _ P); [|exact Hwf].
  apply Forall_forall. intros s Hs. eapply Permutation_in; eassumption.
Qed.

Lemma steps_order_irrelevant_witness :
  fold_left step (rev (steps (make_id 1) (make_id 2))) sample_project
  = patch (make_id 1) (make_id 2) sample_project.
Proof.
  apply (steps_order_irrelevant 1 2 _ sample_project sample_well_formed).
  symmetry. apply Permutation_rev.
Defined.

(** X6: in the output of a run on a well-formed file each of the four
    fragments stands immediately after a match of its own anchor. *)
Theorem fragments_follow_anchors (r1 r2 : N) (content : text) :
  well_formed content ->
  let id1 := make_id r1 in
  let id2 := make_id r2 in
  let out := patch id1 id2 content in
  contains (file_ref_marker ++ file_ref_frag id1) out /\
  contains (build_file_marker ++ build_file_frag id2 id1) out /\
  contains (group_pattern ++ group_frag id1) out /\
  contains (sources_pattern ++ sources_frag id2) out.
Proof.
  intros Hwf id1 id2 out.
  assert (K : forall a f, In (a, f) (steps id1 id2) -> contains (a ++ f) out).
  { intros a f Hin.
    destruct (step_last r1 r2 a f content Hin Hwf) as (pre & post & E).
    unfold out, id1, id2. rewrite E, (app_assoc a f post).
    apply contains_intro. }
  repeat split; apply K; simpl; tauto.
Qed.

Lemma fragments_follow_anchors_witness :
  let id1 := make_id 1 in
  let id2 := make_id 2 in
  let out := patch id1 id2 sample_project in
  contains (file_ref_marker ++ file_ref_frag id1) out /\
  contains (build_file_marker ++ build_file_frag id2 id1) out /\
  contains (group_pattern ++ group_frag id1) out /\
  contains (sources_pattern ++ sources_frag id2) out.
Proof.
  exact (fragments_follow_anchors 1 2 sample_project sample_well_formed).
Defined.

(** * What an identifier keeps of its UUID *)

Section IdBits.

Local Open Scope N_scope.

Lemma firstn_hex_digits k d n :
  firstn k (hex_digits (k + d) n) = hex_digits k (n / 16 ^ N.of_nat d).
Proof.
  revert n; induction d as [|d IH]; intros n.
  - rewrite Nat.add_0_r. simpl N.of_nat. rewrite N.pow_0_r, N.div_1_r.
    rewrite <- (hex_digits_length k n) at 1. apply firstn_all.
  - rewrite Nat2N.inj_succ, N.pow_succ_r', <- N.Div0.div_div, <- IH.
    rewrite Nat.add_succ_r. cbn [hex_digits].
    rewrite firstn_app, hex_digits_length.
    replace (k - (k + d))%nat with 0%nat by lia.
    now rewrite firstn_0, app_nil_r.
Qed.

Lemma hex_digit_inj a b :
  a < 16 -> b < 16 -> hex_digit a = hex_digit b -> a = b.
Proof.
  intros Ha Hb.
  assert (C : forall m, m < 16 ->
            m = 0 \/ m = 1 \/ m = 2 \/ m = 3 \/ m = 4 \/ m = 5 \/ m = 6 \/
            m = 7 \/ m = 8 \/ m = 9 \/ m = 10 \/ m = 11 \/ m = 12 \/
            m = 13 \/ m = 14 \/ m = 15) by (intros; lia).
  destruct (C a Ha) as [-> | [-> | [-> | [-> | [-> | [-> | [-> | [-> |
    [-> | [-> | [-> | [-> | [-> | [-> | [-> | ->]]]]]]]]]]]]]]];
  destruct (C b Hb) as [-> | [-> | [-> | [-> | [-> | [-> | [-> | [-> |
    [-> | [-> | [-> | [-> | [-> | [-> | [-> | ->]]]]]]]]]]]]]]];
  intros E; first [reflexivity | discriminate E].
Qed.

Lemma hex_digits_inj k n m :
  hex_digits k n = hex_digits k m ->
  n mod 16 ^ N.of_nat k = m mod 16 ^ N.of_nat k.
Proof.
  revert n m; induction k as [|k IH]; intros n m E.
  - simpl. now rewrite !N.mod_1_r.
  - simpl in E. apply app_inj_tail in E. destruct E as [E1 E2].
    apply IH in E1. apply hex_digit_inj in E2;
      try (apply N.mod_upper_bound; discriminate).
    rewrite Nat2N.inj_succ, N.pow_succ_r', !N.Div0.mod_mul_r.
    now rewrite E1, E2.
Qed.

Lemma log2_pow2_iff x : x < 2 ^ 128 <-> N.log2 x < 128 \/ x = 0.
Proof.
  destruct (N.eq_dec x 0) as [-> | Hx].
  - split; [now right | intros _; reflexivity].
  - rewrite N.log2_lt_pow2 by lia. tauto.
Qed.

Lemma lor_below x y : x < 2 ^ 128 -> y < 2 ^ 128 -> N.lor x y < 2 ^ 128.
Proof.
  intros Hx Hy. apply log2_pow2_iff.
  apply log2_pow2_iff in Hx, Hy. left. rewrite N.log2_lor.
  destruct Hx as [Hx | ->], Hy as [Hy | ->]; simpl N.log2; lia.
Qed.

Lemma uuid4_below r : uuid4 r < 2 ^ 128.
Proof.
  unfold uuid4. cbv zeta.
  assert (B : forall x m, x < 2 ^ 128 -> N.ldiff x m < 2 ^ 128).
  { intros x m Hx. eapply N.le_lt_trans; [apply N.ldiff_le_l | exact Hx]. }
  apply lor_below; [|reflexivity]. apply B.
  apply lor_below; [|reflexivity]. apply B.
  apply N.mod_upper_bound. discriminate.
Qed.

Lemma upper_lower_hex s t :
  forallb is_lower_hex s = true -> forallb is_lower_hex t = true ->
  upper s = upper t -> s = t.
Proof.
  intros Hs Ht E. destruct (upper_hex s Hs) as [_ <-].
  destruct (upper_hex t Ht) as [_ <-]. now rewrite E.
Qed.

Lemma mod_div_low r :
  (r mod 2 ^ 128) / 2 ^ 32 = (r / 2 ^ 32) mod 2 ^ 96.
Proof.
  change (2 ^ 128) with (2 ^ 32 * 2 ^ 96). rewrite N.Div0.mod_mul_r.
  rewrite N.add_comm, N.mul_comm, N.div_add_l by discriminate.
  rewrite (N.div_small (r mod 2 ^ 32)); [apply N.add_0_r|].
  apply N.mod_upper_bound. discriminate.
Qed.

Lemma uuid4_low_bits r r' :
  r / 2 ^ 32 = r' / 2 ^ 32 -> uuid4 r / 2 ^ 32 = uuid4 r' / 2 ^ 32.
Proof.
  intros E. rewrite <- !N.shiftr_div_pow2. unfold uuid4. cbv zeta.
  rewrite !N.shiftr_lor, !N.shiftr_ldiff, !N.shiftr_lor, !N.shiftr_ldiff.
  rewrite !(N.shiftr_div_pow2 (_ mod _)), !mod_div_low. now rewrite E.
Qed.

Lemma make_id_top_bits r r' :
  make_id r = make_id r' <-> uuid4 r / 2 ^ 32 = uuid4 r' / 2 ^ 32.
Proof.
  unfold make_id, hex.
  rewrite !(firstn_hex_digits 24 8). change (16 ^ N.of_nat 8) with (2 ^ 32).
  split.
  - intros E. apply upper_lower_hex in E; try apply hex_digits_lower.
    apply hex_digits_inj in E. change (16 ^ N.of_nat 24) with (2 ^ 96) in E.
    assert (S : forall x, x < 2 ^ 128 -> (x / 2 ^ 32) mod 2 ^ 96 = x / 2 ^ 32).
    { intros x Hx. apply N.mod_small. apply N.Div0.div_lt_upper_bound.
      exact Hx. }
    now rewrite !S in E by apply uuid4_below.
  - now intros ->.
Qed.

End IdBits.

(** X7: [hex[:24]] keeps exactly the top 96 bits of the UUID: two draws
    give the same identifier exactly when their UUIDs agree above the low
    32 bits; in particular the low 32 random bits play no part. *)
Theorem id_is_top_96_bits (r r' : N) :
  (make_id r = make_id r' <->
   (uuid4 r / 2 ^ 32 = uuid4 r' / 2 ^ 32)%N) /\
  ((r / 2 ^ 32 = r' / 2 ^ 32)%N -> make_id r = make_id r').
Proof.
  split; [apply make_id_top_bits|].
  intros E. apply make_id_top_bits. now apply uuid4_low_bits.
Qed.

Lemma id_is_top_96_bits_witness :
  (123456789 / 2 ^ 32 = 987654321 / 2 ^ 32)%N /\
  make_id 123456789 = make_id 987654321.
Proof.
  assert (E : (123456789 / 2 ^ 32 = 987654321 / 2 ^ 32)%N) by reflexivity.
  split; [exact E|].
  exact (proj2 (id_is_top_96_bits 123456789 987654321) E).
Defined.

(** * Which insertions a run performs *)

Section Planned.

Variables r1 r2 : N.
Let id1 := make_id r1.
Let id2 := make_id r2.

Lemma build_marker_kept content :
  ~ contains ref_then_build content ->
  contains build_file_marker
    (insert_after file_ref_marker (file_ref_frag id1) content)
  <-> contains build_file_marker content.
Proof.
  intros HJ. destruct (run_frags r1 r2) as (F1 & _). split.
  - apply step_no_new_pattern, pattern_avoids_frag; [simpl; tauto | exact F1].
  - intros H.
    destruct (search file_ref_marker content) as [i|] eqn:E.
    + destruct (insert_after_found _ (file_ref_frag id1) _ _ E)
        as (pre & post & Ec & _ & ->).
      subst content. now apply build_marker_survives.
    + unfold insert_after. now rewrite E.
Qed.

Lemma planned_spliced content :
  ~ contains ref_then_build content ->
  exists gs, Permutation gs (planned id1 id2 content) /\
             spliced gs content (patch id1 id2 content).
Proof.
  intros HJ. destruct (run_frags r1 r2) as (F1 & F2 & F3 & F4).
  assert (A1 : In file_ref_marker anchors) by (simpl; tauto).
  assert (A2 : In build_file_marker anchors) by (simpl; tauto).
  assert (A3 : In group_pattern anchors) by (simpl; tauto).
  assert (A4 : In sources_pattern anchors) by (simpl; tauto).
  assert (K : forall x a f doc, In x anchors -> is_frag f ->
            may_touch (known x) (known a) = false ->
            contains x (insert_after a f doc) <-> contains x doc).
  { intros x a f doc Hx Hf Ht. apply step_keeps_pattern.
    - now apply avoids_known.
    - apply pattern_avoids_frag; [now apply anchor_is_pattern | exact Hf]. }
  unfold patch, add_sources_item, add_group_item, add_build_file, add_file_ref.
  destruct (step_cond _ _ _ _ _ A1 F1 (Forall_nil _) (spliced_nil content))
    as (g1 & P1 & W1 & S1).
  destruct (step_cond _ _ _ _ _ A2 F2 W1 S1) as (g2 & P2 & W2 & S2).
  destruct (step_cond _ _ _ _ _ A3 F3 W2 S2) as (g3 & P3 & W3 & S3).
  destruct (step_cond _ _ _ _ _ A4 F4 W3 S3) as (g4 & P4 & W4 & S4).
  exists g4. split; [|exact S4].
  rewrite P4, P3, P2, P1, app_nil_r. unfold planned. simpl.
  rewrite app_nil_r.
  rewrite (search_same build_file_marker _ content)
    by now apply build_marker_kept.
  rewrite (search_same group_pattern _ content).
  2:{ rewrite K by (assumption || (vm_compute; reflexivity)).
      apply K; [assumption | assumption | vm_compute; reflexivity]. }
  rewrite (search_same sources_pattern _ content).
  2:{ rewrite K by (assumption || (vm_compute; reflexivity)).
      rewrite K by (assumption || (vm_compute; reflexivity)).
      apply K; [assumption | assumption | vm_compute; reflexivity]. }
  unfold id1, id2.
  match goal with
  | |- Permutation (?d ++ ?c ++ ?b ++ ?a) (?a ++ ?b ++ ?c ++ ?d) =>
      transitivity ((c ++ b ++ a) ++ d); [apply Permutation_app_comm|];
      rewrite (app_assoc a b (c ++ d)), (app_assoc (a ++ b) c d);
      apply Permutation_app_tail;
      transitivity ((b ++ a) ++ c); [apply Permutation_app_comm|];
      apply Permutation_app_tail, Permutation_app_comm
  end.
Qed.

Lemma newlines_app s t : newlines (s ++ t) = newlines s + newlines t.
Proof. unfold newlines. now rewrite filter_app, length_app. Qed.

Lemma id_no_newline s : is_id s -> newlines s = 0.
Proof.
  intros [_ H]. unfold newlines. induction s as [|c s IH]; [reflexivity|].
  cbn [forallb] in H. apply andb_true_iff in H. destruct H as [Hc Hs].
  cbn [filter]. destruct (Ascii.eqb nl c) eqn:E; [|now apply IH].
  apply Ascii.eqb_eq in E. subst c. discriminate Hc.
Qed.

Lemma frag_newlines f :
  In f (map snd (steps id1 id2)) -> newlines f = 1.
Proof.
  pose proof (id_no_newline _ (make_id_is_id r1)) as N1.
  pose proof (id_no_newline _ (make_id_is_id r2)) as N2.
  fold id1 in N1. fold id2 in N2.
  intros H. simpl in H. decompose [or] H; try contradiction; subst f.
  - change (file_ref_frag id1)
      with ([nl; tab; tab] ++ id1 ++ file_ref_tail).
    rewrite !newlines_app, N1. reflexivity.
  - change (build_file_frag id2 id1)
      with ([nl; tab; tab] ++ id2 ++ build_file_mid ++ id1 ++ build_file_end).
    rewrite !newlines_app, N1, N2. reflexivity.
  - unfold group_frag. rewrite !newlines_app, N1. reflexivity.
  - unfold sources_frag. rewrite !newlines_app, N2. reflexivity.
Qed.

Lemma spliced_newlines gs inp out :
  spliced gs inp out -> newlines out = newlines inp + newlines (concat gs).
Proof.
  induction 1 as [s | b g gs inp out _ IH]; simpl.
  - unfold newlines at 3. simpl. lia.
  - rewrite !newlines_app, IH. lia.
Qed.

Lemma newlines_concat_perm (gs gs' : list text) :
  Permutation gs gs' -> newlines (concat gs) = newlines (concat gs').
Proof.
  induction 1; simpl; rewrite ?newlines_app; try lia.
Qed.

Lemma planned_frags content f :
  In f (planned id1 id2 content) -> In f (map snd (steps id1 id2)).
Proof.
  unfold planned. intros H. apply in_flat_map in H.
  destruct H as (s & Hs & Hf). apply in_map_iff. exists s.
  destruct (search (fst s) content); [|destruct Hf].
  destruct Hf as [<- | []]. now split.
Qed.

Lemma newlines_concat_frags (fs : list text) :
  (forall f, In f fs -> newlines f = 1) ->
  newlines (concat fs) = length fs.
Proof.
  induction fs as [|f fs IH]; intros H; [reflexivity|].
  cbn [concat length]. rewrite newlines_app, IH, (H f).
  - reflexivity.
  - now left.
  - intros g Hg. apply H. now right.
Qed.

End Planned.

(** X8: unless a build-file marker starts on the closing [/] of a
    file-reference marker, which insertions a run performs is decided by
    the input alone: the output is the input with, put in whole and once
    each, exactly the fragments of the steps whose anchors are in the
    input, and it is longer by exactly their lengths. *)
Theorem insertions_decided_by_input (r1 r2 : N) (content : text) :
  ~ contains ref_then_build content ->
  let id1 := make_id r1 in
  let id2 := make_id r2 in
  let out := patch id1 id2 content in
  (exists gs, Permutation gs (planned id1 id2 content) /\
              spliced gs content out) /\
  length out = length content + length (concat (planned id1 id2 content)) /\
  (forall a f, In (a, f) (steps id1 id2) ->
               contains a content -> contains f out).
Proof.
  intros HJ id1 id2 out.
  destruct (planned_spliced r1 r2 content HJ) as (gs & P & S).
  fold id1 id2 out in P, S. split; [now exists gs|]. split.
  - rewrite (spliced_length _ _ _ S). now rewrite (concat_length_perm _ _ P).
  - intros a f Hin Hc. apply (spliced_gap_contains gs content); [exact S|].
    eapply Permutation_in; [symmetry; exact P|].
    unfold planned. apply in_flat_map. exists (a, f). split; [exact Hin|].
    simpl. destruct (search_complete _ _ Hc) as [i ->]. now left.
Qed.

Lemma insertions_decided_by_input_witness :
  let id1 := make_id 1 in
  let id2 := make_id 2 in
  let out := patch id1 id2 twice_listed in
  (exists gs, Permutation gs (planned id1 id2 twice_listed) /\
              spliced gs twice_listed out) /\
  length out
  = length twice_listed + length (concat (planned id1 id2 twice_listed)) /\
  (forall a f, In (a, f) (steps id1 id2) ->
               contains a twice_listed -> contains f out).
Proof.
  apply (insertions_decided_by_input 1 2 twice_listed).
  apply search_None_iff. vm_compute. reflexivity.
Defined.

(** X9: every fragment holds exactly one line break, so a run adds one
    line per insertion: unless the section markers overlap as in X8, the
    output has as many more line breaks as the input has anchors among
    the four. *)
Theorem one_line_per_insertion (r1 r2 : N) (content : text) :
  ~ contains ref_then_build content ->
  let id1 := make_id r1 in
  let id2 := make_id r2 in
  newlines (patch id1 id2 content)
  = newlines content + length (planned id1 id2 content) /\
  length (planned id1 id2 content) <= 4.
Proof.
  intros HJ id1 id2.
  destruct (planned_spliced r1 r2 content HJ) as (gs & P & S).
  fold id1 id2 in P, S. split.
  - rewrite (spliced_newlines _ _ _ S), (newlines_concat_perm _ _ P).
    f_equal. apply newlines_concat_frags. intros f Hf.
    apply (frag_newlines r1 r2). now apply planned_frags in Hf.
  - unfold planned. simpl.
    repeat match goal with
           | |- context [search ?a content] => destruct (search a content)
           end; simpl; lia.
Qed.

Lemma one_line_per_insertion_witness :
  newlines (patch (make_id 1) (make_id 2) sample_project)
  = newlines sample_project
    + length (planned (make_id 1) (make_id 2) sample_project) /\
  length (planned (make_id 1) (make_id 2) sample_project) <= 4.
Proof.
  apply (one_line_per_insertion 1 2 sample_project).
  apply search_None_iff. vm_compute. reflexivity.
Defined.

(** * The fixed digits of an identifier *)

Section FixedDigits.

Local Open Scope N_scope.

Lemma nth_hex_digits k : forall i n d,
  (i < k)%nat ->
  nth i (hex_digits k n) d
  = hex_digit ((n / 16 ^ N.of_nat (k - 1 - i)) mod 16).
Proof.
  induction k as [|k IH]; intros i n d Hi; [lia|]. cbn [hex_digits].
  destruct (Nat.eq_dec i k) as [-> | Hne].
  - rewrite app_nth2; rewrite hex_digits_length; [|lia].
    replace (k - k)%nat with 0%nat by lia.
    replace (S k - 1 - k)%nat with 0%nat by lia.
    simpl. now rewrite N.div_1_r.
  - rewrite app_nth1 by (rewrite hex_digits_length; lia).
    rewrite IH by lia. rewrite N.Div0.div_div.
    replace (S k - 1 - i)%nat with (S (k - 1 - i)) by lia.
    now rewrite Nat2N.inj_succ, N.pow_succ_r'.
Qed.

Lemma version_nibble r : (uuid4 r / 2 ^ 76) mod 16 = 4.
Proof.
  rewrite <- N.shiftr_div_pow2. change 16 with (2 ^ 4).
  rewrite <- N.land_ones. apply N.bits_inj. intros n.
  rewrite N.land_spec, N.shiftr_spec'. unfold uuid4. cbv zeta.
  rewrite N.lor_spec, N.ldiff_spec.
  change (N.shiftl 61440 64) with (N.shiftl 15 76).
  rewrite !N.shiftl_spec_high', N.add_sub by lia.
  destruct (N.lt_ge_cases n 4) as [L | L].
  - assert (C : n = 0 \/ n = 1 \/ n = 2 \/ n = 3) by lia.
    destruct C as [-> | [-> | [-> | ->]]]; simpl;
      rewrite ?andb_false_r; reflexivity.
  - assert (T15 : N.testbit 15 n = false)
      by (apply N.bits_above_log2; simpl; lia).
    assert (T4 : N.testbit 4 n = false)
      by (apply N.bits_above_log2; simpl; lia).
    change (N.ones 4) with 15. rewrite !T15, T4. apply andb_false_r.
Qed.

Lemma variant_bits r : (uuid4 r / 2 ^ 62) mod 4 = 2.
Proof.
  rewrite <- N.shiftr_div_pow2. change 4 with (2 ^ 2).
  rewrite <- N.land_ones. apply N.bits_inj. intros n.
  rewrite N.land_spec, N.shiftr_spec'.
  destruct (N.lt_ge_cases n 2) as [L | L].
  - unfold uuid4. cbv zeta. rewrite N.lor_spec, N.ldiff_spec.
    rewrite N.lor_spec, N.ldiff_spec.
    assert (C : n = 0 \/ n = 1) by lia.
    destruct C as [-> | ->]; simpl;
      rewrite ?andb_false_r, ?andb_true_r, ?orb_false_r, ?orb_true_r;
      reflexivity.
  - assert (T3 : N.testbit 3 n = false)
      by (apply N.bits_above_log2; simpl; lia).
    assert (T2 : N.testbit 2 n = false)
      by (apply N.bits_above_log2; simpl; lia).
    change (N.ones 2) with 3. rewrite T3, T2. apply andb_false_r.
Qed.

Lemma variant_nibble r :
  exists v, v < 4 /\ (uuid4 r / 2 ^ 60) mod 16 = 8 + v.
Proof.
  exists ((uuid4 r / 2 ^ 60) mod 4). split.
  - apply N.mod_upper_bound. discriminate.
  - change 16 with (4 * 4). rewrite N.Div0.mod_mul_r, N.Div0.div_div.
    change (2 ^ 60 * 4) with (2 ^ 62). rewrite variant_bits. lia.
Qed.

End FixedDigits.

(** X10: the identifiers are not random in every digit: the 13th
    character of every identifier is the UUID version [4], and the 17th
    is one of [8], [9], [A], [B] (the UUID variant). *)
Theorem id_fixed_digits (r : N) :
  nth 12 (make_id r) "0"%char = "4"%char /\
  In (nth 16 (make_id r) "0"%char) (lit "89AB").
Proof.
  unfold make_id, upper.
  change "0"%char with (upper_char "0"%char).
  rewrite !map_nth, !nth_firstn. cbn [Nat.ltb Nat.leb]. unfold hex.
  rewrite !nth_hex_digits by lia. split.
  - change (16 ^ N.of_nat (32 - 1 - 12))%N with (2 ^ 76)%N.
    now rewrite version_nibble.
  - change (16 ^ N.of_nat (32 - 1 - 16))%N with (2 ^ 60)%N.
    destruct (variant_nibble r) as (v & Hv & ->).
    assert (C : (v = 0 \/ v = 1 \/ v = 2 \/ v = 3)%N) by lia.
    destruct C as [-> | [-> | [-> | ->]]]; simpl; tauto.
Qed.

(** * Where a second run puts its fragments *)

Section Stacking.

Lemma anchor_nonempty z : In z anchors -> 0 < length z.
Proof.
  intros Hz. simpl in Hz. decompose [or] Hz; try contradiction; subst z;
    vm_compute; lia.
Qed.

Lemma valid_steps_commute x y c :
  valid_step x -> valid_step y -> fst x <> fst y -> well_formed c ->
  step (step c x) y = step (step c y) x.
Proof.
  intros [Ax Fx] [Ay Fy] Hne Hwf. unfold step.
  pose proof Hwf as (Hc & _). rewrite Forall_forall in Hc.
  apply insert_after_commute; auto using anchor_nonempty.
  - apply anchors_apart; auto.
  - apply pattern_avoids_frag; [now apply anchor_is_pattern | exact Fy].
  - apply pattern_avoids_frag; [now apply anchor_is_pattern | exact Fx].
Qed.

Lemma valid_fold_well_formed l c :
  Forall valid_step l -> well_formed c -> well_formed (fold_left step l c).
Proof.
  revert c; induction l as [|[a f] l IH]; intros c Hl Hwf; [exact Hwf|].
  inversion Hl as [|? ? [Ha Hf] Hl']; subst. simpl. apply IH; [exact Hl'|].
  now apply well_formed_step.
Qed.

(** A step can be moved behind later steps on other anchors. *)
Lemma move_last x l : forall c,
  valid_step x -> Forall valid_step l ->
  Forall (fun y => fst x <> fst y) l -> well_formed c ->
  fold_left step (x :: l) c = fold_left step (l ++ [x]) c.
Proof.
  induction l as [|y l IH]; intros c Hx Hl Hne Hwf; [reflexivity|].
  inversion Hl as [|? ? Hy Hl']; subst.
  inversion Hne as [|? ? Hxy Hne']; subst.
  cbn [fold_left app]. rewrite (valid_steps_commute x y c) by assumption.
  apply (IH (step c y)); try assumption.
  destruct y as [b g], Hy as [Hb Hg]. now apply well_formed_step.
Qed.

(** Doing the same step twice puts the second fragment between the anchor
    and the first fragment. *)
Lemma same_anchor_twice a f f' c :
  contains a c ->
  exists pre post,
    insert_after a f' (insert_after a f c) = pre ++ a ++ f' ++ f ++ post.
Proof.
  intros Hc.
  destruct (insert_after_contains a f c Hc) as (pre & post & E & Hm & ->).
  exists pre, post. apply insert_after_at.
  intros j (px & qx & E' & <-).
  destruct (Nat.le_gt_cases (length pre) (length px)) as [L | L];
    [exact L | exfalso].
  rewrite (app_assoc pre a), (app_assoc px a) in E'. symmetry in E'.
  destruct (app_eq_split _ _ _ _ E') as (w & Ew & _);
    [rewrite !length_app; lia|].
  assert (Ho : occ_at a c (length px)).
  { exists px, (w ++ post). split; [|reflexivity].
    rewrite E, (app_assoc pre a), Ew, <- !app_assoc. reflexivity. }
  apply Hm in Ho. lia.
Qed.

Lemma anchors_nodup : NoDup anchors.
Proof.
  unfold anchors. repeat constructor; simpl; intros H;
    decompose [or] H; try contradiction;
    match goal with E : _ = _ |- _ => vm_compute in E; discriminate E end.
Qed.

Lemma steps_split id1 id2 a f l1 l2 :
  steps id1 id2 = l1 ++ (a, f) :: l2 ->
  Forall (fun y => fst (a, f) <> fst y) l1 /\
  Forall (fun y => fst (a, f) <> fst y) l2.
Proof.
  intros E. pose proof anchors_nodup as N.
  change anchors with (map fst (steps id1 id2)) in N.
  rewrite E, map_app in N. simpl in N. apply NoDup_remove_2 in N.
  split; apply Forall_forall; intros y Hy Heq; apply N, in_or_app;
    [left | right]; apply in_map_iff; exists y; simpl in Heq; auto.
Qed.

Lemma twice_stacked r1 r2 r1' r2' a f f' content :
  well_formed content ->
  In (a, f) (steps (make_id r1) (make_id r2)) ->
  In (a, f') (steps (make_id r1') (make_id r2')) ->
  exists pre post,
    patch (make_id r1') (make_id r2')
      (patch (make_id r1) (make_id r2) content)
    = pre ++ a ++ f' ++ f ++ post.
Proof.
  intros Hwf Hin Hin'.
  destruct (in_split _ _ Hin) as (l1 & l2 & E).
  destruct (in_split _ _ Hin') as (m1 & m2 & E').
  destruct (steps_split _ _ _ _ _ _ E) as [_ N2].
  destruct (steps_split _ _ _ _ _ _ E') as [N1' N2'].
  pose proof (steps_ok r1 r2) as V. pose proof (steps_ok r1' r2') as V'.
  change (Forall valid_step (steps (make_id r1) (make_id r2))) in V.
  change (Forall valid_step (steps (make_id r1') (make_id r2'))) in V'.
  rewrite E in V. rewrite E' in V'.
  apply Forall_app in V. destruct V as [V1 V]. inversion V as [|? ? Vx V2]; subst.
  apply Forall_app in V'. destruct V' as [V1' V'].
  inversion V' as [|? ? Vx' V2']; subst.
  rewrite !patch_steps, E, E'.
  set (c1 := fold_left step l1 content).
  assert (W1 : well_formed c1) by now apply valid_fold_well_formed.
  set (d := fold_left step (l2 ++ m1 ++ m2) c1).
  assert (Wd : well_formed d).
  { apply valid_fold_well_formed; [|exact W1].
    repeat (apply Forall_app; split); assumption. }
  assert (R : fold_left step (m1 ++ (a, f') :: m2)
                (fold_left step (l1 ++ (a, f) :: l2) content)
              = step (step d (a, f)) (a, f')).
  { rewrite !fold_left_app. fold c1.
    rewrite (move_last (a, f') m2); try assumption.
    2:{ apply valid_fold_well_formed; [exact V1'|].
        apply valid_fold_well_formed; [now constructor | exact W1]. }
    rewrite fold_left_app. cbn [fold_left]. f_equal.
    rewrite <- !fold_left_app.
    change (fold_left step ((a, f) :: (l2 ++ m1 ++ m2)) c1 = step d (a, f)).
    rewrite (move_last (a, f) (l2 ++ m1 ++ m2)); try assumption.
    - now rewrite fold_left_app.
    - repeat (apply Forall_app; split); assumption.
    - repeat (apply Forall_app; split); assumption. }
  rewrite R. unfold step. cbn [fst snd].
  apply same_anchor_twice.
  destruct Wd as (Hc & _). rewrite Forall_forall in Hc. apply Hc, Vx.
Qed.

End Stacking.

(** X11: a second run on a well-formed file puts each of its fragments
    between the anchor and the fragment of the first run: in the output
    every anchor is followed at once by the newer fragment and then by the
    older one. *)
Theorem rerun_stacks_newest_first (r1 r2 r1' r2' : N) (content : text) :
  well_formed content ->
  let id1 := make_id r1 in
  let id2 := make_id r2 in
  let id1' := make_id r1' in
  let id2' := make_id r2' in
  let out2 := patch id1' id2' (patch id1 id2 content) in
  contains (file_ref_marker ++ file_ref_frag id1' ++ file_ref_frag id1) out2
  /\
  contains (build_file_marker ++ build_file_frag id2' id1'
            ++ build_file_frag id2 id1) out2 /\
  contains (group_pattern ++ group_frag id1' ++ group_frag id1) out2 /\
  contains (sources_pattern ++ sources_frag id2' ++ sources_frag id2) out2.
Proof.
  intros Hwf id1 id2 id1' id2' out2.
  assert (K : forall a f f', In (a, f) (steps id1 id2) ->
                In (a, f') (steps id1' id2') ->
                contains (a ++ f' ++ f) out2).
  { intros a f f' H H'.
    destruct (twice_stacked r1 r2 r1' r2' a f f' content Hwf H H')
      as (pre & post & E).
    unfold out2, id1, id2, id1', id2'. rewrite E.
    replace (pre ++ a ++ f' ++ f ++ post)
      with (pre ++ (a ++ f' ++ f) ++ post) by now rewrite <- !app_assoc.
    apply contains_intro. }
  repeat split; apply K; simpl; tauto.
Qed.

Lemma rerun_stacks_newest_first_witness :
  let id1 := make_id 1 in
  let id2 := make_id 2 in
  let id1' := make_id (2 ^ 100) in
  let id2' := make_id (2 ^ 101) in
  let out2 := patch id1' id2' (patch id1 id2 sample_project) in
  contains (file_ref_marker ++ file_ref_frag id1' ++ file_ref_frag id1) out2
  /\
  contains (build_file_marker ++ build_file_frag id2' id1'
            ++ build_file_frag id2 id1) out2 /\
  contains (group_pattern ++ group_frag id1' ++ group_frag id1) out2 /\
  contains (sources_pattern ++ sources_frag id2' ++ sources_frag id2) out2.
Proof.
  exact (rerun_stacks_newest_first 1 2 (2 ^ 100) (2 ^ 101) sample_project
           sample_well_formed).
Defined.
